(** * FAST-LIVO2 visual map core: [Frame], the image pyramid and [VisualPoint]

    A shallow embedding of [src/frame.cpp] and [src/visual_point.cpp].

    - C++ [double] and [float] values are IEEE-754 numbers, kept as Rocq's
      primitive binary64 floats (every binary32 value is a binary64 value and
      the comparisons agree).
    - C++ [int] is a [Z] inside the 32-bit range; the one place that
      increments an [int] writes the wrap-around out.
    - [cv::Mat] is a header (rows, cols, type, data pointer) over a store of
      pixel buffers, so that sharing a buffer and allocating a new one differ.
    - [Feature*] is a handle with decidable equality; [delete] is recorded in
      the list of released handles a method returns. *)

From Stdlib Require Import ZArith Lia Floats String.
From stdpp Require Import base option list.

(* ===================================================================== *)
(** * Eigen: [Vector3d] *)
(* ===================================================================== *)

Module Eigen.
#[local] Open Scope float_scope.

Record Vector3d := V3 { x : float; y : float; z : float }.

(** [a - b] *)
Definition sub (a b : Vector3d) : Vector3d :=
  V3 (x a - x b) (y a - y b) (z a - z b).

(** [-a] *)
Definition opp (a : Vector3d) : Vector3d := V3 (- x a) (- y a) (- z a).

(** [a.dot(b)] *)
Definition dot (a b : Vector3d) : float := x a * x b + y a * y b + z a * z b.

Definition squaredNorm (a : Vector3d) : float := dot a a.

(** [a.normalize()]: Eigen divides by the norm when the squared norm is
    positive and leaves the vector alone otherwise. *)
Definition normalize (a : Vector3d) : Vector3d :=
  let n2 := squaredNorm a in
  if 0 <? n2 then let n := sqrt n2 in V3 (x a / n) (y a / n) (z a / n) else a.
End Eigen.

(* ===================================================================== *)
(** * visual_point.cpp *)
(* ===================================================================== *)

Import Eigen.

(** [feature.h] and the Sophus pose type are not among the sources. A
    [Feature*] held by a point is a handle to a live [Feature] (never a null
    pointer: the selection loops dereference every entry of [obs_]); two
    pointers are equal when the handles are. What the methods read through
    a handle is taken as given: the pose snapshot [T_f_w_], the camera
    centre [T_f_w_.inverse().translation()] it yields, and the [float]
    member [score_]. No method below writes to a [Feature]. *)
Class FeatureAccess := {
  Feature : Type;
  Feature_eq_dec :: EqDecision Feature;
  SE3 : Type;
  T_f_w_ : Feature -> SE3;
  inverse_translation : SE3 -> Vector3d;
  score_ : Feature -> float
}.

Section VisualPointMethods.
Context `{FA : FeatureAccess}.
#[local] Open Scope float_scope.

(** The members of [VisualPoint] the sources name. [ref_patch] is a
    [Feature*]: [None] is [nullptr]. [obs_] is the [std::list<Feature*>],
    front first. *)
Record VisualPoint := mkVisualPoint {
  pos_ : Vector3d;
  previous_normal_ : Vector3d;
  normal_ : Vector3d;
  is_converged_ : bool;
  is_normal_initialized_ : bool;
  has_ref_patch_ : bool;
  obs_ : list Feature;
  ref_patch : option Feature
}.

Definition set_obs (vp : VisualPoint) (l : list Feature) : VisualPoint :=
  mkVisualPoint (pos_ vp) (previous_normal_ vp) (normal_ vp) (is_converged_ vp)
    (is_normal_initialized_ vp) (has_ref_patch_ vp) l (ref_patch vp).

Definition clear_ref_patch (vp : VisualPoint) : VisualPoint :=
  mkVisualPoint (pos_ vp) (previous_normal_ vp) (normal_ vp) (is_converged_ vp)
    (is_normal_initialized_ vp) false (obs_ vp) None.

(** ** [addFrameRef]: [obs_.push_front(ftr)] *)
Definition addFrameRef (ftr : Feature) (vp : VisualPoint) : VisualPoint :=
  set_obs vp (ftr :: obs_ vp).

(** ** [deleteFeatureRef] *)

(** The scan: the list after the first entry equal to [ftr] is erased,
    and the pointers handed to [delete]. *)
Fixpoint deleteFeatureRef_scan (ftr : Feature) (its : list Feature)
  : list Feature * list Feature :=
  match its with
  | [] => ([], [])
  | it :: rest =>
      if decide (it = ftr) then (rest, [it])
      else let '(kept, released) := deleteFeatureRef_scan ftr rest in
           (it :: kept, released)
  end.

Definition deleteFeatureRef (ftr : Feature) (vp : VisualPoint)
  : VisualPoint * list Feature :=
  let vp1 := if decide (ref_patch vp = Some ftr) then clear_ref_patch vp else vp in
  let '(kept, released) := deleteFeatureRef_scan ftr (obs_ vp1) in
  (set_obs vp1 kept, released).

(** ** [getCloseViewObs] *)

(** [cos_angle] of one observation, as the loop body computes it. *)
Definition cos_angle (pos framepos : Vector3d) (it : Feature) : float :=
  let obs_dir := normalize (sub framepos pos) in
  let dir := normalize (sub (inverse_translation (T_f_w_ it)) pos) in
  dot obs_dir dir.

(** The loop, from iterator [its] on, with the current [min_it] and
    [min_cos_angle]. *)
Fixpoint getCloseViewObs_loop (pos framepos : Vector3d) (its : list Feature)
    (min_it : Feature) (min_cos_angle : float) : Feature * float :=
  match its with
  | [] => (min_it, min_cos_angle)
  | it :: rest =>
      let c := cos_angle pos framepos it in
      if min_cos_angle <? c
      then getCloseViewObs_loop pos framepos rest it c
      else getCloseViewObs_loop pos framepos rest min_it min_cos_angle
  end.

(** The result is the returned [bool] and the value of the reference
    parameter [ftr] on return. [cur_px] is not read. *)
Definition getCloseViewObs (vp : VisualPoint) (framepos : Vector3d)
    (ftr : option Feature) (cur_px : float * float) : bool * option Feature :=
  match obs_ vp with
  | [] => (false, ftr)
  | begin :: _ =>
      let '(min_it, min_cos_angle) :=
        getCloseViewObs_loop (pos_ vp) framepos (obs_ vp) begin 0 in
      if min_cos_angle <? 0.5 then (false, Some min_it) else (true, Some min_it)
  end.

(** ** [findMinScoreFeature] *)

Definition FLT_MAX : float := 0x1.fffffep+127.

Fixpoint findMinScoreFeature_loop (its : list Feature) (min_it : Feature)
    (min_score : float) : Feature * float :=
  match its with
  | [] => (min_it, min_score)
  | it :: rest =>
      if score_ it <? min_score
      then findMinScoreFeature_loop rest it (score_ it)
      else findMinScoreFeature_loop rest min_it min_score
  end.

(** The value written to [ftr]. On an empty list the source dereferences
    [obs_.begin()], which is the end iterator: no value ([None]). *)
Definition findMinScoreFeature (vp : VisualPoint) (framepos : Vector3d)
  : option Feature :=
  match obs_ vp with
  | [] => None
  | begin :: _ => Some (findMinScoreFeature_loop (obs_ vp) begin FLT_MAX).1
  end.

(** ** [deleteNonRefPatchFeatures] *)

(** The list that remains and the pointers handed to [delete], in order. *)
Fixpoint deleteNonRefPatchFeatures_scan (ref : option Feature) (its : list Feature)
  : list Feature * list Feature :=
  match its with
  | [] => ([], [])
  | it :: rest =>
      let '(kept, released) := deleteNonRefPatchFeatures_scan ref rest in
      if decide (Some it <> ref) then (kept, it :: released)
      else (it :: kept, released)
  end.

Definition deleteNonRefPatchFeatures (vp : VisualPoint)
  : VisualPoint * list Feature :=
  let '(kept, released) := deleteNonRefPatchFeatures_scan (ref_patch vp) (obs_ vp) in
  (set_obs vp kept, released).

(** ** Construction and destruction *)

(** [VisualPoint::VisualPoint(pos)]. The initialiser list sets the position,
    both normals ([Vector3d::Zero()]) and the three flags; [obs_] starts
    empty. It does not name [ref_patch], which gets what the class
    declaration gives it: that declaration is not among the sources, so the
    value is taken as [ref0]. *)
Definition VisualPoint_ctor (pos : Vector3d) (ref0 : option Feature) : VisualPoint :=
  mkVisualPoint pos (V3 0 0 0) (V3 0 0 0) false false false [] ref0.

(** [VisualPoint::~VisualPoint()]: every entry of [obs_] is handed to
    [delete], front first, the list is cleared and [ref_patch] is set to
    [nullptr] (the flag is left alone). *)
Definition VisualPoint_dtor (vp : VisualPoint) : VisualPoint * list Feature :=
  (mkVisualPoint (pos_ vp) (previous_normal_ vp) (normal_ vp) (is_converged_ vp)
     (is_normal_initialized_ vp) (has_ref_patch_ vp) [] None,
   obs_ vp).

(** ** Predicates the statements about a point use *)

(** The reference patch and its flag agree, and a reference patch is one of
    the observations. *)
Definition ref_patch_consistent (vp : VisualPoint) : Prop :=
  (has_ref_patch_ vp = true <-> ref_patch vp <> None)
  /\ forall r, ref_patch vp = Some r -> r ∈ obs_ vp.

(** The members of a point other than [obs_], [ref_patch] and its flag. *)
Definition geometry (vp : VisualPoint) : Vector3d * Vector3d * Vector3d * bool * bool :=
  (pos_ vp, previous_normal_ vp, normal_ vp, is_converged_ vp, is_normal_initialized_ vp).

End VisualPointMethods.

(* ===================================================================== *)
(** * OpenCV: [cv::Mat] *)
(* ===================================================================== *)

Module cv.
#[local] Open Scope Z_scope.

Definition CV_8U : Z := 0.
Definition CV_8UC1 : Z := 0.

(** A matrix header. [data] is the address of the pixel buffer ([None] is a
    null pointer); copying or assigning a [cv::Mat] copies the header, so
    both headers name the same buffer. *)
Record Mat := mkMat { rows : Z; cols : Z; type_ : Z; data : option nat }.

(** The pixel buffers, by address. A buffer is never released here. *)
Abbreviation PixelStore := (list (list Z)).

(** [cv::Mat()] *)
Definition Mat_default : Mat := mkMat 0 0 CV_8UC1 None.

(** [m.total()] of a two-dimensional matrix *)
Definition total (m : Mat) : Z := rows m * cols m.

(** [m.empty()] *)
Definition empty (m : Mat) : bool :=
  bool_decide (data m = None) || (total m =? 0).

(** [cv::Mat(rows, cols, type)] for a one-byte type and sizes that are not
    negative: a header with a buffer of its own when it has pixels, and
    none otherwise. The new buffer's content is indeterminate in C++; it is
    zero here and [halfSample] writes every pixel of it before any is
    read. *)
Definition Mat_create (r c t : Z) (mem : PixelStore) : Mat * PixelStore :=
  if 0 <? r * c
  then (mkMat r c t (Some (length mem)), mem ++ [replicate (Z.to_nat (r * c)) 0])
  else (mkMat r c t None, mem).

(** The bytes of [m], row after row ([m] is continuous). *)
Definition pixels (mem : PixelStore) (m : Mat) : list Z :=
  match data m with
  | Some a => default [] (mem !! a)
  | None => []
  end.

(** [m.at<uchar>(y, x)] *)
Definition at_ (mem : PixelStore) (m : Mat) (y x : Z) : Z :=
  default 0 (pixels mem m !! Z.to_nat (y * cols m + x)).

End cv.

(* ===================================================================== *)
(** * vikit: [vk::halfSample] *)
(* ===================================================================== *)

Module vk.
Import cv.
#[local] Open Scope Z_scope.

(** Modelled from the spec: [vk::halfSample] belongs to vikit and is not
    among the sources. The spec calls a level the half-sampled predecessor,
    a 2x2 box average: the output pixel [(y, x)] is the mean of the input
    pixels in rows [2y, 2y+1] and columns [2x, 2x+1], an integer division
    by 4 as the result is a byte. *)
Definition box (mem : PixelStore) (src : Mat) (y x : Z) : Z :=
  (at_ mem src (2 * y) (2 * x) + at_ mem src (2 * y) (2 * x + 1)
   + at_ mem src (2 * y + 1) (2 * x) + at_ mem src (2 * y + 1) (2 * x + 1)) `quot` 4.

(** The output buffer, row after row. *)
Definition halfSample_pixels (mem : PixelStore) (src : Mat) (r c : nat) : list Z :=
  flat_map (fun y => map (fun x => box mem src (Z.of_nat y) (Z.of_nat x)) (seq 0 c))
           (seq 0 r).

(** [vk::halfSample(in, out)]: fills the buffer of [out]. *)
Definition halfSample (src out : Mat) (mem : PixelStore) : PixelStore :=
  match data out with
  | Some a =>
      <[a := halfSample_pixels mem src (Z.to_nat (rows out)) (Z.to_nat (cols out))]> mem
  | None => mem
  end.

End vk.

(* ===================================================================== *)
(** * frame.cpp *)
(* ===================================================================== *)

Module frame_utils.
Import cv.

(** [ImgPyr] is a [std::vector<cv::Mat>]. *)
Abbreviation ImgPyr := (list Mat).

(** The [for] loop of [createImgPyramid] with [todo] rounds left, at index
    [i]. Reading or writing [pyr] outside its bounds has no result. *)
Fixpoint createImgPyramid_loop (todo i : nat) (pyr : ImgPyr) (mem : PixelStore)
  : option (ImgPyr * PixelStore) :=
  match todo with
  | O => Some (pyr, mem)
  | S todo' =>
      prev ← pyr !! (i - 1)%nat;
      _ ← pyr !! i;
      let '(level, mem1) :=
        Mat_create (rows prev `quot` 2)%Z (cols prev `quot` 2)%Z CV_8U mem in
      let pyr1 := <[i := level]> pyr in
      let mem2 := vk.halfSample prev level mem1 in
      createImgPyramid_loop todo' (S i) pyr1 mem2
  end.

(** [createImgPyramid(img_level_0, n_levels, pyr)]: the new content of
    [pyr] and of the pixel store. With [n_levels <= 0] the source either
    writes [pyr[0]] of an empty vector or asks [resize] for a negative
    size: no result. *)
Definition createImgPyramid (img_level_0 : Mat) (n_levels : Z) (pyr : ImgPyr)
    (mem : PixelStore) : option (ImgPyr * PixelStore) :=
  if (n_levels <=? 0)%Z then None
  else
    let pyr0 := resize (Z.to_nat n_levels) Mat_default pyr in
    let pyr1 := <[0%nat := img_level_0]> pyr0 in
    createImgPyramid_loop (Z.to_nat n_levels - 1) 1 pyr1 mem.

End frame_utils.

Import cv.

(** [vk::AbstractCamera], as far as [initFrame] asks it: the image size the
    model was calibrated for ([width()], [height()]). *)
Record AbstractCamera := mkCamera { width : Z; height : Z }.

(** The members of [Frame] that the constructor sets. ([fts_], the features
    anchored in the frame, starts empty and is only read by the destructor.) *)
Record Frame := mkFrame { id_ : Z; cam_ : AbstractCamera; img_ : Mat }.

(** What lives outside any one frame: the static [Frame::frame_counter_]
    and the lines written to [std::cerr]. *)
Record Process := mkProcess { frame_counter_ : Z; cerr : list string }.

(** How a call ends: it returns, or it throws a [std::runtime_error] with
    the text [what()]. *)
Inductive outcome (A : Type) : Type :=
  | Returned (a : A)
  | Thrown (what : string).
Arguments Returned {A} a.
Arguments Thrown {A} what.

(** The two errors of the spec are the two texts the source throws. *)
Definition EmptyImage : string := "Frame: provided image is empty".
Definition BadPixelFormat : string := "Frame: provided image is not grayscale".
Definition size_warning : string :=
  "Frame: image size differs from camera model, continue with scaled input.".

Definition INT_MIN : Z := - 2 ^ 31.
Definition INT_MAX : Z := 2 ^ 31 - 1.

(** An [int] after an arithmetic step, wrapped to 32 bits two's complement
    (what the compiled [frame_counter_++] does at [INT_MAX]). *)
Definition int_wrap (z : Z) : Z := ((z + 2 ^ 31) mod 2 ^ 32 - 2 ^ 31)%Z.

(** [Frame::initFrame(img)] on the frame [this]: the lines on [std::cerr]
    afterwards, and the frame with [img_] set, or the exception. *)
Definition initFrame (this : Frame) (img : Mat) (err : list string)
  : list string * outcome Frame :=
  if empty img then (err, Thrown EmptyImage)
  else
    let err1 :=
      if negb (cols img =? width (cam_ this))%Z || negb (rows img =? height (cam_ this))%Z
      then err ++ [size_warning] else err in
    if negb (type_ img =? CV_8UC1)%Z then (err1, Thrown BadPixelFormat)
    else (err1, Returned (mkFrame (id_ this) (cam_ this) img)).

(** [Frame::Frame(cam, img)]: the member initialisers take the id and bump
    the counter, then the body runs [initFrame]. An exception leaves the
    process with the counter already bumped. *)
Definition Frame_ctor (cam : AbstractCamera) (img : Mat) (p : Process)
  : Process * outcome Frame :=
  let this := mkFrame (frame_counter_ p) cam Mat_default in
  let counter := int_wrap (frame_counter_ p + 1) in
  let '(err, r) := initFrame this img (cerr p) in
  (mkProcess counter err, r).

(** Construction attempts one after the other, in one process. *)
Fixpoint construct_all (attempts : list (AbstractCamera * Mat)) (p : Process)
  : Process * list (outcome Frame) :=
  match attempts with
  | [] => (p, [])
  | (cam, img) :: rest =>
      let '(p1, r) := Frame_ctor cam img p in
      let '(p2, rs) := construct_all rest p1 in
      (p2, r :: rs)
  end.

(** The ids of the frames that were constructed, in order of construction. *)
Definition constructed_ids (rs : list (outcome Frame)) : list Z :=
  omap (fun r => match r with Returned f => Some (id_ f) | Thrown _ => None end) rs.

(** Every [cv::Mat] a frame holds: [img_] is its only image member. *)
Definition Frame_images (f : Frame) : list Mat := [img_ f].

(** The spec's reading of a gap-free id sequence: each id is one more than
    the id before it. *)
Definition gap_free (ids : list Z) : Prop :=
  forall (i : nat) (a b : Z), ids !! i = Some a -> ids !! S i = Some b -> b = (a + 1)%Z.

(** The spec's reading of a frame that holds its pyramid of [n] levels:
    every level [createImgPyramid] makes of the frame's image is an image
    of the frame. *)
Definition holds_pyramid (f : Frame) (n : Z) (mem : PixelStore) : Prop :=
  exists pyr mem', frame_utils.createImgPyramid (img_ f) n [] mem = Some (pyr, mem')
    /\ forall level, level ∈ pyr -> level ∈ Frame_images f.

(** ** Predicates the statements about the pyramid use *)

(** [lvl] is usable over [mem]: its sizes are not negative and its buffer,
    if it has one, is a buffer of the store. *)
Definition in_store (mem : PixelStore) (lvl : Mat) : Prop :=
  (0 <= rows lvl)%Z /\ (0 <= cols lvl)%Z
  /\ forall a, data lvl = Some a -> (a < length mem)%nat.

(** [lvl] is [prev] half-sampled, over [mem]: half the rows and columns,
    rounded down, and every pixel the 2x2 box average. *)
Definition half_of (mem : PixelStore) (prev lvl : Mat) : Prop :=
  rows lvl = (rows prev / 2)%Z /\ cols lvl = (cols prev / 2)%Z
  /\ forall y x : Z, (0 <= y < rows lvl)%Z -> (0 <= x < cols lvl)%Z ->
       at_ mem lvl y x = vk.box mem prev y x.

(** What the loop of [createImgPyramid] has established at index [i]. *)
Definition built (mem : PixelStore) (pyr : list Mat) (i : nat) : Prop :=
  (forall j lvl, (j < i)%nat -> pyr !! j = Some lvl -> in_store mem lvl)
  /\ (forall j prev lvl, (S j < i)%nat ->
        pyr !! j = Some prev -> pyr !! S j = Some lvl -> half_of mem prev lvl).

(** ** Predicates the statements about frame ids use *)

(** Strictly increasing. *)
Definition increasing (ids : list Z) : Prop :=
  forall (i j : nat) (a b : Z),
    (i < j)%nat -> ids !! i = Some a -> ids !! j = Some b -> (a < b)%Z.

(** The construction returned a frame. *)
Definition succeeded (r : outcome Frame) : Prop := exists f, r = Returned f.

(** ** Predicates the statements about the process use *)

(** An attempt that gets the size warning: its image is not empty and has
    another size than the camera model. *)
Definition warns (a : AbstractCamera * Mat) : bool :=
  negb (empty a.2)
  && (negb (cols a.2 =? width a.1)%Z || negb (rows a.2 =? height a.1)%Z).

(** ** Predicates the statements about cosines use *)

(** A zero of either sign, or NaN: what a sum of products with a zero is. *)
Definition zero_or_nan (f : float) : Prop :=
  match Prim2SF f with
  | SpecFloat.S754_zero _ | SpecFloat.S754_nan => True
  | _ => False
  end.

(* ===================================================================== *)
(** * Concrete inputs *)
(* ===================================================================== *)

(** A small world the statements below are run on. *)
Module Scenario.
#[local] Open Scope float_scope.

(** Features are numbered. The pose of a feature's frame has the identity
    rotation, so it is its translation [t] and the camera centre is [-t]. *)
Definition anchor (f : nat) : Vector3d :=
  match f with
  | 0%nat => V3 1 0 0
  | 1%nat => V3 0 1 0
  | 2%nat => V3 (-1) 0 0
  | 3%nat => V3 1 1 (sqrt 2)
  | _ => V3 0 0 1
  end.

Definition score (f : nat) : float :=
  match f with
  | 0%nat => 7
  | 1%nat => 3
  | 2%nat => 3
  | 4%nat => infinity
  | 5%nat => FLT_MAX
  | _ => 1
  end.

#[export] Instance features : FeatureAccess := {|
  Feature := nat;
  SE3 := Vector3d;
  T_f_w_ := fun f => opp (anchor f);
  inverse_translation := opp;
  score_ := score
|}.

Definition origin : Vector3d := V3 0 0 0.

(** A point at [pos] with the observations [obs] (front first) and the
    reference patch [ref]. *)
Definition point (pos : Vector3d) (obs : list nat) (ref : option nat) : VisualPoint :=
  mkVisualPoint pos origin origin false false (bool_decide (ref <> None)) obs ref.

Definition px0 : float * float := (0, 0).

(** A 4x4 grey image at address 0, a 2x2 grey image at address 1. *)
Definition store0 : PixelStore :=
  [ [ 10; 20; 30; 40;
      50; 60; 70; 80;
      90; 100; 110; 120;
      130; 140; 150; 161 ]%Z;
    [ 1; 2;
      3; 4 ]%Z ].

Definition cam4 : AbstractCamera := mkCamera 4 4.
Definition img4 : Mat := mkMat 4 4 CV_8UC1 (Some 0%nat).
Definition img2 : Mat := mkMat 2 2 CV_8UC1 (Some 1%nat).
(** Three channels: [CV_8UC3] is 16. *)
Definition img_bgr : Mat := mkMat 4 4 16 (Some 0%nat).
Definition img_none : Mat := Mat_default.

Definition process0 : Process := mkProcess 0 [].

End Scenario.

(** Further inputs: a camera image of 640 columns and 480 rows, and a
    position away from the origin. *)
Module Inputs.
Import Scenario.

Definition cam640 : AbstractCamera := mkCamera 640 480.
Definition img640 : Mat := mkMat 480 640 CV_8UC1 (Some 0%nat).
Definition elsewhere : Vector3d := V3 1%float 2%float 3%float.

End Inputs.

(* ===================================================================== *)
(** * IEEE-754 comparisons *)
(* ===================================================================== *)

(** The order facts the selection loops rest on, derived from the
    specification of the primitive comparisons ([SFcompare]). They hold with
    NaN and the infinities present: a comparison with NaN is [false]. *)
Module Double.
Import SpecFloat.

Ltac cmp_cases :=
  repeat match goal with
  | |- context [Z.compare ?a ?b] => destruct (Z.compare_spec a b)
  | H : context [Z.compare ?a ?b] |- _ => destruct (Z.compare_spec a b)
  | |- context [Pos.compare_cont Eq ?a ?b] =>
      change (Pos.compare_cont Eq a b) with (Pos.compare a b);
      destruct (Pos.compare_spec a b)
  | H : context [Pos.compare_cont Eq ?a ?b] |- _ =>
      change (Pos.compare_cont Eq a b) with (Pos.compare a b) in H;
      destruct (Pos.compare_spec a b)
  end.

Ltac sf_crush :=
  intros; unfold SFltb, SFleb, SFcompare in *;
  repeat match goal with
  | x : spec_float |- _ => destruct x
  | b : bool |- _ => destruct b
  end; simpl in *; try discriminate; try reflexivity;
  cmp_cases; simpl in *; subst; try discriminate; try reflexivity; try lia.

Lemma SFltb_irrefl a : SFltb a a = false.
Proof. sf_crush. Qed.

Lemma SFltb_trans a b c :
  SFltb a b = true -> SFltb b c = true -> SFltb a c = true.
Proof. sf_crush. Qed.

Lemma SFltb_leb_trans a b c :
  SFltb a b = true -> SFleb b c = true -> SFltb a c = true.
Proof. sf_crush. Qed.

Lemma SFleb_ltb_trans a b c :
  SFleb a b = true -> SFltb b c = true -> SFltb a c = true.
Proof. sf_crush. Qed.

Lemma SFleb_trans a b c :
  SFleb a b = true -> SFleb b c = true -> SFleb a c = true.
Proof. sf_crush. Qed.

Lemma SFltb_leb a b : SFltb a b = true -> SFleb a b = true.
Proof. sf_crush. Qed.

Lemma SFleb_refl_l a b : SFleb a b = true -> SFleb a a = true.
Proof. sf_crush. Qed.

Lemma SFleb_refl_r a b : SFleb a b = true -> SFleb b b = true.
Proof. sf_crush. Qed.

Lemma SFleb_not_ltb a b : SFleb a b = true -> SFltb b a = false.
Proof. sf_crush. Qed.

Lemma SFleb_total a b :
  SFleb a a = true -> SFleb b b = true -> SFltb a b = false -> SFleb b a = true.
Proof. sf_crush. Qed.

Local Open Scope float_scope.

Ltac to_spec := intros; rewrite ?ltb_spec, ?leb_spec in *.

Lemma ltb_irrefl a : (a <? a) = false.
Proof. to_spec; apply SFltb_irrefl. Qed.

Lemma ltb_trans a b c : (a <? b) = true -> (b <? c) = true -> (a <? c) = true.
Proof. to_spec; eauto using SFltb_trans. Qed.

Lemma ltb_leb_trans a b c : (a <? b) = true -> (b <=? c) = true -> (a <? c) = true.
Proof. to_spec; eauto using SFltb_leb_trans. Qed.

Lemma leb_ltb_trans a b c : (a <=? b) = true -> (b <? c) = true -> (a <? c) = true.
Proof. to_spec; eauto using SFleb_ltb_trans. Qed.

Lemma leb_trans a b c : (a <=? b) = true -> (b <=? c) = true -> (a <=? c) = true.
Proof. to_spec; eauto using SFleb_trans. Qed.

Lemma ltb_leb a b : (a <? b) = true -> (a <=? b) = true.
Proof. to_spec; eauto using SFltb_leb. Qed.

Lemma leb_refl_l a b : (a <=? b) = true -> (a <=? a) = true.
Proof. to_spec; eauto using SFleb_refl_l. Qed.

Lemma leb_refl_r a b : (a <=? b) = true -> (b <=? b) = true.
Proof. to_spec; eauto using SFleb_refl_r. Qed.

Lemma leb_not_ltb a b : (a <=? b) = true -> (b <? a) = false.
Proof. to_spec; eauto using SFleb_not_ltb. Qed.

(** Two numbers that are not NaN are comparable. *)
Lemma leb_total a b :
  (a <=? a) = true -> (b <=? b) = true -> (a <? b) = false -> (b <=? a) = true.
Proof. to_spec; eauto using SFleb_total. Qed.

(** A cosine that reaches the threshold is positive. *)
Lemma threshold_pos c : (0.5 <=? c) = true -> (0 <? c) = true.
Proof. intros E. apply (ltb_leb_trans 0 0.5 c); [reflexivity | exact E]. Qed.

(** A number that is not below the threshold reaches it. *)
Lemma threshold_reached c : (c <=? c) = true -> (c <? 0.5) = false -> (0.5 <=? c) = true.
Proof. intros Hc Hlt. apply (leb_total c 0.5 Hc); [reflexivity | exact Hlt]. Qed.

(** Contrapositive of transitivity, the form the running maximum uses. *)
Lemma not_ltb_raise m m' c :
  (m <? c) = false -> (m <? m') = true -> (m' <? c) = false.
Proof.
  intros Hmc Hmm'. destruct (m' <? c) eqn:E; [|reflexivity].
  rewrite (ltb_trans _ _ _ Hmm' E) in Hmc. discriminate.
Qed.
End Double.

(* ===================================================================== *)
(** * Facts about visual_point.cpp *)
(* ===================================================================== *)

Section VisualPointFacts.
Context `{FA : FeatureAccess}.
#[local] Open Scope float_scope.

(** ** The loop of [getCloseViewObs] *)

(** Started with a number [m], the loop either never updates (no cosine
    exceeds [m]) or ends on the first observation whose cosine no other
    observation exceeds, and that cosine exceeds [m]. *)
Lemma getCloseViewObs_loop_spec pos framepos its :
  forall min_it m sel m',
    getCloseViewObs_loop pos framepos its min_it m = (sel, m') ->
    (m' = m /\ sel = min_it
     /\ Forall (fun o => (m <? cos_angle pos framepos o) = false) its)
    \/ (exists pre post,
          its = pre ++ sel :: post
          /\ m' = cos_angle pos framepos sel
          /\ (m <? m') = true
          /\ Forall (fun o => (m' <=? cos_angle pos framepos o) = false) pre
          /\ Forall (fun o => (m' <? cos_angle pos framepos o) = false) its).
Proof.
  induction its as [|it rest IH]; intros min_it m sel m' Hrun; simpl in Hrun.
  - left. inversion Hrun; subst. auto.
  - destruct (m <? cos_angle pos framepos it) eqn:Hlt.
    + apply IH in Hrun as [(-> & -> & Hrest) | (pre & post & -> & -> & Hcm & Hpre & Hall)].
      * right. exists [], rest. repeat split; auto.
        constructor; [apply Double.ltb_irrefl | exact Hrest].
      * right. exists (it :: pre), post. repeat split.
        -- eauto using Double.ltb_trans.
        -- constructor; [|exact Hpre].
           destruct (_ <=? _) eqn:E; [|reflexivity].
           apply Double.leb_not_ltb in E. congruence.
        -- constructor; [|exact Hall].
           apply Double.leb_not_ltb, Double.ltb_leb, Hcm.
    + apply IH in Hrun as [(-> & -> & Hrest) | (pre & post & -> & -> & Hcm & Hpre & Hall)].
      * left. repeat split; auto.
      * right. exists (it :: pre), post. repeat split; auto.
        -- constructor; [|exact Hpre].
           destruct (_ <=? _) eqn:E; [|reflexivity].
           rewrite (Double.ltb_leb_trans _ _ _ Hcm E) in Hlt. discriminate.
        -- constructor; [|exact Hall].
           eauto using Double.not_ltb_raise.
Qed.

(** The result of [getCloseViewObs] in terms of the cosines: not found
    exactly when no observation has a cosine of at least 0.5, which covers
    the empty list, where the output reference is left as it was; and
    whenever some observation has a positive cosine, the feature written is
    the first observation in list order whose cosine no other observation
    exceeds. *)
Lemma getCloseViewObs_selects_best_when_positive
    (vp : VisualPoint) (framepos : Vector3d) (ftr : option Feature)
    (cur_px : float * float) :
  let cosv := cos_angle (pos_ vp) framepos in
  let r := getCloseViewObs vp framepos ftr cur_px in
  (obs_ vp = [] -> r = (false, ftr))
  /\ (r.1 = false <->
        obs_ vp = [] \/ forall o, o ∈ obs_ vp -> (0.5 <=? cosv o) = false)
  /\ (r.1 = true -> exists o, o ∈ obs_ vp /\ (0 <? cosv o) = true)
  /\ ((exists o, o ∈ obs_ vp /\ (0 <? cosv o) = true) ->
        exists pre sel post,
          obs_ vp = pre ++ sel :: post
          /\ r.2 = Some sel
          /\ (forall o, o ∈ obs_ vp -> (cosv sel <? cosv o) = false)
          /\ (forall o, o ∈ pre -> (cosv sel <=? cosv o) = false)).
Proof.
  intros cosv r. subst r. unfold getCloseViewObs.
  destruct (obs_ vp) as [|b rest] eqn:Hobs.
  { split; [reflexivity|]. split; [|split]; simpl.
    - split; auto.
    - discriminate.
    - intros (o & Ho & _). inversion Ho. }
  destruct (getCloseViewObs_loop (pos_ vp) framepos (b :: rest) b 0) as [sel m'] eqn:Hrun.
  apply getCloseViewObs_loop_spec in Hrun.
  fold cosv in Hrun.
  split; [discriminate|].
  destruct Hrun as [(-> & -> & Hall) | (pre & post & Hsplit & -> & Hpos & Hpre & Hall)];
    rewrite Forall_forall in Hall.
  - (* no cosine is positive *)
    change (0 <? 0.5) with true. simpl.
    split; [|split].
    + split; [|reflexivity]. intros _. right. intros o Ho.
      destruct (0.5 <=? cosv o) eqn:E; [|reflexivity].
      apply Double.threshold_pos in E. rewrite Hall in E by exact Ho. discriminate.
    + discriminate.
    + intros (o & Ho & Hlt). rewrite Hall in Hlt by exact Ho. discriminate.
  - (* [sel] has the greatest cosine, and it is positive *)
    rewrite Forall_forall in Hpre.
    assert (Hsel : sel ∈ b :: rest).
    { rewrite Hsplit. apply elem_of_app. right. constructor. }
    split; [|split].
    + destruct (cosv sel <? 0.5) eqn:Hthr; simpl.
      * split; [|reflexivity]. intros _. right. intros o Ho.
        destruct (0.5 <=? cosv o) eqn:E; [|reflexivity].
        specialize (Hall o Ho).
        rewrite (Double.ltb_leb_trans _ _ _ Hthr E) in Hall. discriminate.
      * split; [discriminate|]. intros [Hnil | Hno]; [discriminate|].
        specialize (Hno sel Hsel).
        rewrite Double.threshold_reached in Hno; [discriminate| |exact Hthr].
        eapply Double.leb_refl_r, Double.ltb_leb, Hpos.
    + intros _. exists sel. split; [exact Hsel | exact Hpos].
    + intros _. exists pre, sel, post.
      destruct (cosv sel <? 0.5); simpl; repeat split; auto.
Qed.

(** C1. [getCloseViewObs] selects the observation that maximizes the
    cosine, the dot product of the unit vector from the point to the query
    position with the unit vector from the point to the observation's
    camera centre: when it reports found, the feature it returns is the
    first observation in list order whose cosine no observation exceeds,
    every cosine that is a number is at most that cosine, and that cosine
    is at least 0.5. It reports not found if the observation list is empty
    (the output reference is then left as it was) and if the best cosine is
    below 0.5; altogether it reports not found exactly when the list is
    empty or no cosine reaches 0.5. *)
Theorem getCloseViewObs_selects_closest_view
    (vp : VisualPoint) (framepos : Vector3d) (ftr : option Feature)
    (cur_px : float * float) :
  let cosv := cos_angle (pos_ vp) framepos in
  let r := getCloseViewObs vp framepos ftr cur_px in
  (r.1 = true ->
     exists pre sel post,
       obs_ vp = pre ++ sel :: post
       /\ r.2 = Some sel
       /\ (0.5 <=? cosv sel) = true
       /\ (forall o, o ∈ obs_ vp -> (cosv sel <? cosv o) = false)
       /\ (forall o, o ∈ obs_ vp -> (cosv o <=? cosv o) = true ->
             (cosv o <=? cosv sel) = true)
       /\ (forall o, o ∈ pre -> (cosv sel <=? cosv o) = false))
  /\ (obs_ vp = [] -> r = (false, ftr))
  /\ ((exists best, best ∈ obs_ vp
         /\ (forall o, o ∈ obs_ vp -> (cosv best <? cosv o) = false)
         /\ (cosv best <? 0.5) = true) ->
      r.1 = false)
  /\ (r.1 = false <->
        obs_ vp = [] \/ forall o, o ∈ obs_ vp -> (0.5 <=? cosv o) = false).
Proof.
  intros cosv r.
  destruct (getCloseViewObs_selects_best_when_positive vp framepos ftr cur_px)
    as (Hnil & Hnot & _ & _).
  fold cosv in Hnot. fold r in Hnil, Hnot.
  split; [|split; [exact Hnil|split; [|exact Hnot]]].
  - clear Hnil Hnot. subst r. unfold getCloseViewObs.
    destruct (obs_ vp) as [|b rest] eqn:Hobs; [discriminate|].
    destruct (getCloseViewObs_loop (pos_ vp) framepos (b :: rest) b 0) as [sel m'] eqn:Hrun.
    apply getCloseViewObs_loop_spec in Hrun. fold cosv in Hrun.
    destruct Hrun as [(-> & -> & Hall) | (pre & post & Hsplit & -> & Hpos & Hpre & Hall)].
    + change (0 <? 0.5) with true. discriminate.
    + destruct (cosv sel <? 0.5) eqn:Hthr; simpl; [discriminate|]. intros _.
      rewrite Forall_forall in Hall. rewrite Forall_forall in Hpre.
      assert (Hnum : (cosv sel <=? cosv sel) = true).
      { eapply Double.leb_refl_r, Double.ltb_leb, Hpos. }
      exists pre, sel, post. split; [exact Hsplit|]. split; [reflexivity|].
      split; [apply Double.threshold_reached; assumption|].
      split; [exact Hall|]. split; [|exact Hpre].
      intros o Ho Honum. apply Double.leb_total; auto.
  - intros (best & Hb & Hbmax & Hlow). apply Hnot. right. intros o Ho.
    destruct (0.5 <=? cosv o) eqn:E; [|reflexivity].
    specialize (Hbmax o Ho).
    rewrite (Double.ltb_leb_trans _ _ _ Hlow E) in Hbmax. discriminate.
Qed.

(** C2 (as amended). With one observation whose cosine is exactly 0.5,
    [getCloseViewObs] reports found and writes that observation: the test
    [min_cos_angle < 0.5] rejects only a cosine strictly below 0.5, which
    with one observation is then reported as not found. *)
Theorem getCloseViewObs_found_at_threshold
    (vp : VisualPoint) (framepos : Vector3d) (ftr : option Feature)
    (cur_px : float * float) (f : Feature) :
  obs_ vp = [f] ->
  (cos_angle (pos_ vp) framepos f = 0.5 ->
     getCloseViewObs vp framepos ftr cur_px = (true, Some f))
  /\ ((cos_angle (pos_ vp) framepos f <? 0.5) = true ->
     getCloseViewObs vp framepos ftr cur_px = (false, Some f)).
Proof.
  intros Hobs. unfold getCloseViewObs. rewrite Hobs. simpl. split.
  - intros ->. reflexivity.
  - intros Hlt.
    destruct (0 <? cos_angle (pos_ vp) framepos f) eqn:Hpos.
    + rewrite Hlt. reflexivity.
    + reflexivity.
Qed.

(** C10. On a non-empty observation list [getCloseViewObs] always writes an
    element of the list to the output reference, found or not; and when
    every cosine is at most 0 it reports not found and the element written
    is the front of the list, whatever the cosines are. *)
Theorem getCloseViewObs_always_writes_member
    (vp : VisualPoint) (framepos : Vector3d) (ftr : option Feature)
    (cur_px : float * float) :
  obs_ vp <> [] ->
  (exists f, (getCloseViewObs vp framepos ftr cur_px).2 = Some f /\ f ∈ obs_ vp)
  /\ ((forall o, o ∈ obs_ vp -> (cos_angle (pos_ vp) framepos o <=? 0) = true) ->
      getCloseViewObs vp framepos ftr cur_px = (false, head (obs_ vp))).
Proof.
  intros Hne. unfold getCloseViewObs.
  destruct (obs_ vp) as [|b rest] eqn:Hobs; [congruence|].
  destruct (getCloseViewObs_loop (pos_ vp) framepos (b :: rest) b 0) as [sel m'] eqn:Hrun.
  apply getCloseViewObs_loop_spec in Hrun.
  destruct Hrun as [(-> & -> & Hall) | (pre & post & Hsplit & -> & Hpos & Hpre & Hall)].
  - change (0 <? 0.5) with true. simpl. split.
    + exists b. split; [reflexivity | constructor].
    + reflexivity.
  - assert (Hsel : sel ∈ b :: rest).
    { rewrite Hsplit. apply elem_of_app. right. constructor. }
    split.
    + exists sel. destruct (_ <? 0.5); simpl; auto.
    + intros Hle. apply Hle, Double.leb_not_ltb in Hsel. congruence.
Qed.

(** ** [addFrameRef] and the order of [obs_] *)

(** Features added one after the other stand in [obs_] newest first. *)
Lemma addFrameRef_newest_first (fs : list Feature) :
  forall vp : VisualPoint,
    obs_ (foldl (fun v f => addFrameRef f v) vp fs) = rev fs ++ obs_ vp.
Proof.
  induction fs as [|f fs IH]; intros vp; simpl; [reflexivity|].
  rewrite IH. simpl. rewrite <- app_assoc. reflexivity.
Qed.

(** ** The loop of [findMinScoreFeature] *)

(** Over scores that are numbers and started with a number [m], the loop
    either never updates (no score is below [m]) or ends on the first
    observation with the least score, which is below [m]. *)
Lemma findMinScoreFeature_loop_spec its :
  forall min_it m sel m',
    findMinScoreFeature_loop its min_it m = (sel, m') ->
    (m <=? m) = true ->
    Forall (fun o => (score_ o <=? score_ o) = true) its ->
    (m' = m /\ sel = min_it /\ Forall (fun o => (m <=? score_ o) = true) its)
    \/ (exists pre post,
          its = pre ++ sel :: post
          /\ m' = score_ sel
          /\ (m' <? m) = true
          /\ Forall (fun o => (m' <? score_ o) = true) pre
          /\ Forall (fun o => (m' <=? score_ o) = true) its).
Proof.
  induction its as [|it rest IH]; intros min_it m sel m' Hrun Hm Hnum; simpl in Hrun.
  - left. inversion Hrun; subst. auto.
  - inversion Hnum as [|? ? Hit Hrest]; subst.
    destruct (score_ it <? m) eqn:Hlt.
    + apply IH in Hrun as [(-> & -> & Hall) | (pre & post & -> & -> & Hcm & Hpre & Hall)];
        [ | | exact Hit | exact Hrest].
      * right. exists [], rest. repeat split; auto.
      * right. exists (it :: pre), post. repeat split.
        -- eauto using Double.ltb_trans.
        -- constructor; [exact Hcm | exact Hpre].
        -- constructor; [apply Double.ltb_leb, Hcm | exact Hall].
    + assert (Hmit : (m <=? score_ it) = true) by (apply Double.leb_total; assumption).
      apply IH in Hrun as [(-> & -> & Hall) | (pre & post & -> & -> & Hcm & Hpre & Hall)];
        [ | | exact Hm | exact Hrest].
      * left. repeat split; auto.
      * assert (Hsit : (score_ sel <? score_ it) = true)
          by eauto using Double.ltb_leb_trans.
        right. exists (it :: pre), post. repeat split; auto.
        constructor; [apply Double.ltb_leb, Hsit | exact Hall].
Qed.

(** C7 (as amended). On a non-empty observation list whose scores are all
    at most [FLT_MAX] (so none is NaN or +infinity), [findMinScoreFeature]
    returns an observation with the smallest score, and the earliest such
    in iteration order: every observation before it has a strictly greater
    score. [addFrameRef] keeps the list newest first, so the earliest in
    iteration order is the most recently added. *)
Theorem findMinScoreFeature_first_minimum
    (vp : VisualPoint) (framepos : Vector3d) :
  obs_ vp <> [] ->
  Forall (fun o => (score_ o <=? FLT_MAX) = true) (obs_ vp) ->
  (exists pre sel post,
      obs_ vp = pre ++ sel :: post
      /\ findMinScoreFeature vp framepos = Some sel
      /\ (forall o, o ∈ obs_ vp -> (score_ sel <=? score_ o) = true)
      /\ (forall o, o ∈ pre -> (score_ sel <? score_ o) = true))
  /\ (forall (v : VisualPoint) (fs : list Feature),
        obs_ (foldl (fun v f => addFrameRef f v) v fs) = rev fs ++ obs_ v).
Proof.
  intros Hne Hmax. split; [|intros; apply addFrameRef_newest_first].
  unfold findMinScoreFeature.
  destruct (obs_ vp) as [|b rest] eqn:Hobs; [congruence|].
  destruct (findMinScoreFeature_loop (b :: rest) b FLT_MAX) as [sel m'] eqn:Hrun.
  apply findMinScoreFeature_loop_spec in Hrun; [|reflexivity|].
  2:{ eapply Forall_impl; [exact Hmax|]. simpl. eauto using Double.leb_refl_l. }
  rewrite Forall_forall in Hmax.
  destruct Hrun as [(-> & -> & Hall) | (pre & post & Hsplit & -> & Hcm & Hpre & Hall)];
    rewrite Forall_forall in Hall.
  - exists [], b, rest. simpl. repeat split; auto.
    + intros o Ho. eapply Double.leb_trans; [apply Hmax; constructor | apply Hall, Ho].
    + intros o Ho. inversion Ho.
  - rewrite Forall_forall in Hpre.
    exists pre, sel, post. simpl. repeat split; auto.
Qed.

(** ** [deleteNonRefPatchFeatures] *)

Lemma deleteNonRefPatchFeatures_scan_spec (ref : option Feature) (its : list Feature) :
  (deleteNonRefPatchFeatures_scan ref its).1 = filter (fun o => Some o = ref) its
  /\ (deleteNonRefPatchFeatures_scan ref its).2 = filter (fun o => Some o <> ref) its.
Proof.
  induction its as [|it rest [IH1 IH2]]; simpl; [auto|].
  destruct (deleteNonRefPatchFeatures_scan ref rest) as [kept released]; simpl in *.
  rewrite !filter_cons. subst.
  destruct (decide (Some it <> ref)) as [Hne|He]; simpl.
  - rewrite decide_False by exact Hne. auto.
  - apply dec_stable in He. rewrite decide_True by exact He. auto.
Qed.

(** C8. After [deleteNonRefPatchFeatures] every observation left is the
    reference patch, every observation that was not the reference patch
    has been handed to [delete] (and nothing else has), and with no
    reference patch ([ref_patch] null) the list is empty. The entries kept
    are those of the old list equal to [ref_patch], in their order. *)
Theorem deleteNonRefPatchFeatures_leaves_ref_patch (vp : VisualPoint) :
  let r := deleteNonRefPatchFeatures vp in
  (forall o, o ∈ obs_ r.1 -> ref_patch vp = Some o)
  /\ (forall o, o ∈ r.2 <-> o ∈ obs_ vp /\ ref_patch vp <> Some o)
  /\ (ref_patch vp = None -> obs_ r.1 = [])
  /\ obs_ r.1 = filter (fun o => Some o = ref_patch vp) (obs_ vp)
  /\ ref_patch r.1 = ref_patch vp.
Proof.
  intros r. subst r. unfold deleteNonRefPatchFeatures.
  pose proof (deleteNonRefPatchFeatures_scan_spec (ref_patch vp) (obs_ vp)) as [H1 H2].
  destruct (deleteNonRefPatchFeatures_scan (ref_patch vp) (obs_ vp)) as [kept released].
  simpl in *. subst. split; [|split; [|split; [|split]]]; try reflexivity.
  - intros o Ho. apply list_elem_of_filter in Ho as [Ho _]. auto.
  - intros o. rewrite list_elem_of_filter. split.
    + intros [Hne Ho]. split; [exact Ho|]. intros E. apply Hne. auto.
    + intros [Ho Hne]. split; [|exact Ho]. intros E. apply Hne. auto.
  - intros Hnone. rewrite Hnone. clear. induction (obs_ vp) as [|o l IH]; [reflexivity|].
    rewrite filter_cons, decide_False by discriminate. exact IH.
Qed.

(** ** [deleteFeatureRef] after [addFrameRef] *)

(** C9. [addFrameRef(f)] followed by [deleteFeatureRef(f)] leaves the
    observation list as it was before the two calls, entry by entry; the
    scan stops at the front entry, which is the one just added, and hands
    it to [delete]. (That [f] was not in the list before is not needed.) *)
Theorem addFrameRef_deleteFeatureRef_restores (vp : VisualPoint) (f : Feature) :
  obs_ (deleteFeatureRef f (addFrameRef f vp)).1 = obs_ vp
  /\ (deleteFeatureRef f (addFrameRef f vp)).2 = [f].
Proof.
  unfold deleteFeatureRef, addFrameRef.
  destruct (decide (ref_patch (set_obs vp (f :: obs_ vp)) = Some f)); simpl;
    rewrite decide_True by reflexivity; simpl; auto.
Qed.

End VisualPointFacts.

(* ===================================================================== *)
(** * Facts about the image pyramid *)
(* ===================================================================== *)

Section PyramidFacts.
Import frame_utils.
#[local] Open Scope Z_scope.

Lemma pixels_app mem ext m :
  in_store mem m -> pixels (mem ++ ext) m = pixels mem m.
Proof.
  intros (_ & _ & Ha). unfold pixels. destruct (data m) as [a|]; [|reflexivity].
  rewrite lookup_app_l by auto. reflexivity.
Qed.

Lemma at_pixels mem1 mem2 m y x :
  pixels mem1 m = pixels mem2 m -> at_ mem1 m y x = at_ mem2 m y x.
Proof. unfold at_. intros ->. reflexivity. Qed.

Lemma box_pixels mem1 mem2 m y x :
  pixels mem1 m = pixels mem2 m -> vk.box mem1 m y x = vk.box mem2 m y x.
Proof. unfold vk.box. intros H. rewrite !(at_pixels mem1 mem2 m) by exact H. reflexivity. Qed.

Lemma in_store_app mem ext m : in_store mem m -> in_store (mem ++ ext) m.
Proof.
  intros (Hr & Hc & Ha). repeat split; auto.
  intros a E. rewrite length_app. apply Ha in E. lia.
Qed.

Lemma half_of_app mem ext prev lvl :
  in_store mem prev -> in_store mem lvl ->
  half_of mem prev lvl -> half_of (mem ++ ext) prev lvl.
Proof.
  intros Hp Hl (Hr & Hc & Hpix). repeat split; auto.
  intros y x Hy Hx.
  rewrite (at_pixels _ mem), (box_pixels _ mem) by (apply pixels_app; assumption).
  auto.
Qed.

(** The index of pixel [(y, x)] in a row-major buffer. *)
Lemma lookup_row_major {A} (f : nat -> nat -> A) (c : nat) :
  forall (r s y x : nat), (y < r)%nat -> (x < c)%nat ->
    flat_map (fun y => map (f y) (seq 0 c)) (seq s r) !! (y * c + x)%nat = Some (f (s + y)%nat x).
Proof.
  induction r as [|r IH]; intros s y x Hy Hx; [lia|].
  simpl. destruct y as [|y].
  - rewrite lookup_app_l by (rewrite length_map, length_seq; lia).
    simpl. rewrite list_lookup_fmap, lookup_seq_lt by lia. simpl.
    rewrite Nat.add_0_r. reflexivity.
  - rewrite lookup_app_r by (rewrite length_map, length_seq; simpl; lia).
    rewrite length_map, length_seq.
    replace (S y * c + x - c)%nat with (y * c + x)%nat by (simpl; lia).
    rewrite IH by lia. f_equal. f_equal. lia.
Qed.

Lemma halfSample_pixels_at mem src (r c : nat) (y x : Z) :
  0 <= y < Z.of_nat r -> 0 <= x < Z.of_nat c ->
  vk.halfSample_pixels mem src r c !! Z.to_nat (y * Z.of_nat c + x) = Some (vk.box mem src y x).
Proof.
  intros Hy Hx. unfold vk.halfSample_pixels.
  replace (Z.to_nat (y * Z.of_nat c + x)) with (Z.to_nat y * c + Z.to_nat x)%nat by nia.
  rewrite (lookup_row_major (fun y x => vk.box mem src (Z.of_nat y) (Z.of_nat x))) by lia.
  simpl. rewrite !Z2Nat.id by lia. reflexivity.
Qed.

(** One round of the loop: allocate the level, fill it. *)
Lemma level_step mem prev :
  in_store mem prev ->
  forall level mem1,
    Mat_create (rows prev `quot` 2) (cols prev `quot` 2) CV_8U mem = (level, mem1) ->
    let mem2 := vk.halfSample prev level mem1 in
    (exists ext, mem2 = mem ++ ext)
    /\ in_store mem2 level
    /\ half_of mem2 prev level.
Proof.
  intros Hprev level mem1 Hcreate mem2. subst mem2.
  pose proof Hprev as (Hr & Hc & Ha).
  rewrite !Z.quot_div_nonneg in Hcreate by lia.
  unfold Mat_create in Hcreate.
  assert (Hr2 : 0 <= rows prev / 2) by (apply Z.div_pos; lia).
  assert (Hc2 : 0 <= cols prev / 2) by (apply Z.div_pos; lia).
  destruct (0 <? rows prev / 2 * (cols prev / 2)) eqn:Hsize; inversion Hcreate; subst; clear Hcreate.
  - unfold vk.halfSample. simpl.
    set (pix := vk.halfSample_pixels _ _ _ _).
    assert (Hmem2 : <[length mem := pix]> (mem ++ [replicate (Z.to_nat (rows prev / 2 * (cols prev / 2))) 0])
                    = mem ++ [pix]).
    { replace (length mem) with (length mem + 0)%nat at 1 by lia.
      rewrite insert_app_r. reflexivity. }
    rewrite Hmem2. split; [eauto|]. split.
    + repeat split; simpl; auto. intros a [= <-]. rewrite length_app. simpl. lia.
    + repeat split; simpl; auto. intros y x Hy Hx.
      rewrite (box_pixels _ mem) by (apply pixels_app; exact Hprev).
      unfold at_, pixels at 1. simpl.
      rewrite lookup_app_r, Nat.sub_diag by lia. simpl.
      subst pix. simpl.
      rewrite <- (Z2Nat.id (cols prev / 2)) at 1 by lia.
      rewrite halfSample_pixels_at by lia. simpl.
      apply box_pixels. apply pixels_app. exact Hprev.
  - unfold vk.halfSample. simpl. split; [exists []; rewrite app_nil_r; reflexivity|]. split.
    + repeat split; simpl; auto. discriminate.
    + repeat split; simpl; auto. intros y x Hy Hx.
      apply Z.ltb_ge in Hsize. nia.
Qed.

Lemma createImgPyramid_loop_spec (todo : nat) :
  forall (i : nat) (pyr : ImgPyr) (mem : PixelStore),
    (1 <= i)%nat -> (i + todo = length pyr)%nat -> built mem pyr i ->
    exists pyr' mem',
      createImgPyramid_loop todo i pyr mem = Some (pyr', mem')
      /\ length pyr' = length pyr
      /\ (exists ext, mem' = mem ++ ext)
      /\ (forall j, (j < i)%nat -> pyr' !! j = pyr !! j)
      /\ built mem' pyr' (i + todo).
Proof.
  induction todo as [|todo IH]; intros i pyr mem Hi Hlen [Hstore Hhalf].
  - exists pyr, mem. simpl. rewrite Nat.add_0_r.
    split; [reflexivity|]. split; [reflexivity|]. split; [|split; [reflexivity|split; assumption]].
    exists []. rewrite app_nil_r. reflexivity.
  - simpl.
    destruct (lookup_lt_is_Some_2 pyr (i - 1)) as [prev Hprev]; [lia|].
    destruct (lookup_lt_is_Some_2 pyr i) as [old Hold]; [lia|].
    rewrite Hprev, Hold. simpl.
    assert (Hps : in_store mem prev) by (apply (Hstore (i - 1)%nat); [lia | exact Hprev]).
    destruct (Mat_create _ _ _ mem) as [level mem1] eqn:Hcreate.
    destruct (level_step mem prev Hps level mem1 Hcreate) as ([ext1 Hext1] & Hls & Hlh).
    set (mem2 := vk.halfSample prev level mem1) in *.
    destruct (IH (S i) (<[i := level]> pyr) mem2) as (pyr' & mem' & Hrun & Hlen' & [ext2 Hext2] & Hpre & Hbuilt).
    + lia.
    + rewrite length_insert. lia.
    + split.
      * intros j lvl Hj Hl. destruct (decide (j = i)) as [->|Hne].
        -- rewrite list_lookup_insert_eq in Hl by lia. inversion Hl; subst. exact Hls.
        -- rewrite list_lookup_insert_ne in Hl by auto.
           rewrite Hext1. apply in_store_app. apply (Hstore j); [lia | exact Hl].
      * intros j p l Hj Hp Hl.
        rewrite list_lookup_insert_ne in Hp by lia.
        destruct (decide (S j = i)) as [<-|Hne].
        -- rewrite list_lookup_insert_eq in Hl by lia. inversion Hl; subst.
           replace (S j - 1)%nat with j in Hprev by lia.
           rewrite Hprev in Hp. inversion Hp; subst. exact Hlh.
        -- rewrite list_lookup_insert_ne in Hl by auto.
           rewrite Hext1. apply half_of_app.
           ++ apply (Hstore j); [lia | exact Hp].
           ++ apply (Hstore (S j)); [lia | exact Hl].
           ++ apply (Hhalf j); [lia | exact Hp | exact Hl].
    + exists pyr', mem'. split; [exact Hrun|]. split; [|split; [|split]].
      * rewrite Hlen', length_insert. reflexivity.
      * exists (ext1 ++ ext2). rewrite Hext2, Hext1, app_assoc. reflexivity.
      * intros j Hj. rewrite Hpre by lia. apply list_lookup_insert_ne. lia.
      * replace (i + S todo)%nat with (S i + todo)%nat by lia. exact Hbuilt.
Qed.

(** Indices below the loop's start are not written. *)
Lemma createImgPyramid_loop_prefix (todo : nat) :
  forall (i : nat) (pyr : ImgPyr) (mem : PixelStore) pyr' mem',
    createImgPyramid_loop todo i pyr mem = Some (pyr', mem') ->
    forall j, (j < i)%nat -> pyr' !! j = pyr !! j.
Proof.
  induction todo as [|todo IH]; intros i pyr mem pyr' mem' Hrun j Hj; simpl in Hrun.
  - inversion Hrun; subst. reflexivity.
  - destruct (pyr !! (i - 1)%nat) as [prev|]; [|discriminate].
    destruct (pyr !! i) as [old|]; [|discriminate]. simpl in Hrun.
    destruct (Mat_create _ _ _ mem) as [level mem1].
    apply IH with (j := j) in Hrun; [|lia].
    rewrite Hrun. apply list_lookup_insert_ne. lia.
Qed.

(** With two levels or more, level 1 has half the rows of the input. *)
Lemma createImgPyramid_level1 (img : Mat) (n : Z) (pyr : ImgPyr) (mem : PixelStore) pyr' mem' :
  2 <= n ->
  createImgPyramid img n pyr mem = Some (pyr', mem') ->
  exists level, pyr' !! 1%nat = Some level /\ rows level = rows img `quot` 2.
Proof.
  intros Hn Hrun. unfold createImgPyramid in Hrun.
  destruct (n <=? 0) eqn:E; [apply Z.leb_le in E; lia|].
  set (pyr1 := <[0%nat := img]> (resize (Z.to_nat n) Mat_default pyr)) in *.
  assert (Hlen : length pyr1 = Z.to_nat n) by (unfold pyr1; rewrite length_insert, length_resize; reflexivity).
  destruct (Z.to_nat n - 1)%nat as [|todo] eqn:Htodo; [lia|].
  simpl in Hrun.
  assert (H0 : pyr1 !! 0%nat = Some img).
  { unfold pyr1. apply list_lookup_insert_eq. rewrite length_resize. lia. }
  rewrite H0 in Hrun. simpl in Hrun.
  destruct (pyr1 !! 1%nat) as [old|] eqn:H1; [|discriminate]. simpl in Hrun.
  destruct (Mat_create _ _ _ mem) as [level mem1] eqn:Hcreate.
  exists level. split.
  - rewrite (createImgPyramid_loop_prefix _ _ _ _ _ _ Hrun) by lia.
    apply list_lookup_insert_eq. apply lookup_lt_Some in H1. exact H1.
  - unfold Mat_create in Hcreate. destruct (0 <? _); inversion Hcreate; reflexivity.
Qed.

(** C5. For a non-empty single-channel 8-bit image whose buffer is in the
    store and [n >= 1] levels, [createImgPyramid] returns, and [pyr] then
    has exactly [n] levels; level 0 is the header of the input itself, so it
    names the input's buffer, whose pixels are unchanged; every level
    [k >= 1] has half the rows and half the columns of level [k - 1],
    rounded down, and each of its pixels is the 2x2 box average of
    level [k - 1]. *)
Theorem createImgPyramid_levels (img : Mat) (n : Z) (pyr : ImgPyr) (mem : PixelStore) :
  empty img = false -> type_ img = CV_8UC1 -> in_store mem img -> 1 <= n ->
  exists pyr' mem',
    createImgPyramid img n pyr mem = Some (pyr', mem')
    /\ length pyr' = Z.to_nat n
    /\ pyr' !! 0%nat = Some img
    /\ pixels mem' img = pixels mem img
    /\ forall k prev level, pyr' !! k = Some prev -> pyr' !! S k = Some level ->
         rows level = rows prev / 2 /\ cols level = cols prev / 2
         /\ forall y x, 0 <= y < rows level -> 0 <= x < cols level ->
              at_ mem' level y x = vk.box mem' prev y x.
Proof.
  intros _ _ Himg Hn. unfold createImgPyramid.
  destruct (n <=? 0) eqn:E; [apply Z.leb_le in E; lia|].
  set (pyr1 := <[0%nat := img]> (resize (Z.to_nat n) Mat_default pyr)).
  assert (Hlen : length pyr1 = Z.to_nat n) by (unfold pyr1; rewrite length_insert, length_resize; reflexivity).
  assert (H0 : pyr1 !! 0%nat = Some img).
  { unfold pyr1. apply list_lookup_insert_eq. rewrite length_resize. lia. }
  destruct (createImgPyramid_loop_spec (Z.to_nat n - 1) 1 pyr1 mem)
    as (pyr' & mem' & Hrun & Hlen' & [ext Hext] & Hpre & [Hstore Hhalf]).
  - lia.
  - lia.
  - split.
    + intros j lvl Hj Hl. replace j with 0%nat in Hl by lia. rewrite H0 in Hl.
      inversion Hl; subst. exact Himg.
    + intros j p l Hj. lia.
  - exists pyr', mem'. split; [exact Hrun|]. split; [lia|]. split; [|split].
    + rewrite Hpre by lia. exact H0.
    + rewrite Hext. apply pixels_app. exact Himg.
    + intros k prev level Hp Hl.
      apply (Hhalf k); [|exact Hp|exact Hl].
      apply lookup_lt_Some in Hl. lia.
Qed.

End PyramidFacts.

(* ===================================================================== *)
(** * Facts about [Frame] *)
(* ===================================================================== *)

Section FrameFacts.
Import frame_utils.
#[local] Open Scope Z_scope.

(** The two exceptions carry different texts. *)
Lemma EmptyImage_not_BadPixelFormat : EmptyImage <> BadPixelFormat.
Proof. discriminate. Qed.

(** The three ways [initFrame] ends. *)
Lemma initFrame_cases (this : Frame) (img : Mat) (err : list string) :
  let size_ok := bool_decide (cols img = width (cam_ this) /\ rows img = height (cam_ this)) in
  let err1 := if size_ok then err else err ++ [size_warning] in
  (empty img = true /\ initFrame this img err = (err, Thrown EmptyImage))
  \/ (empty img = false /\ type_ img <> CV_8UC1
      /\ initFrame this img err = (err1, Thrown BadPixelFormat))
  \/ (empty img = false /\ type_ img = CV_8UC1
      /\ initFrame this img err = (err1, Returned (mkFrame (id_ this) (cam_ this) img))).
Proof.
  intros size_ok err1. unfold initFrame.
  destruct (empty img); [left; auto|right].
  assert (Herr : (if negb (cols img =? width (cam_ this)) || negb (rows img =? height (cam_ this))
                  then err ++ [size_warning] else err) = err1).
  { subst err1 size_ok.
    destruct (Z.eqb_spec (cols img) (width (cam_ this))), (Z.eqb_spec (rows img) (height (cam_ this))); simpl.
    - rewrite bool_decide_eq_true_2 by auto. reflexivity.
    - rewrite bool_decide_eq_false_2 by tauto. reflexivity.
    - rewrite bool_decide_eq_false_2 by tauto. reflexivity.
    - rewrite bool_decide_eq_false_2 by tauto. reflexivity. }
  rewrite Herr.
  destruct (Z.eqb_spec (type_ img) CV_8UC1); simpl; [right|left]; auto.
Qed.

(** C6. Constructing a [Frame] throws exactly when the image is empty or
    its type is not [CV_8UC1]: [EmptyImage] exactly when it is empty,
    [BadPixelFormat] exactly when it is not empty and not [CV_8UC1]. For an
    image that is neither, the frame is constructed with the image as
    supplied, and [std::cerr] gains the size warning and nothing else when
    the image size differs from the camera model's, and nothing when it
    does not. *)
Theorem Frame_ctor_fails_on_empty_or_bad_format
    (cam : AbstractCamera) (img : Mat) (p : Process) :
  let r := Frame_ctor cam img p in
  ((exists what, r.2 = Thrown what) <-> empty img = true \/ type_ img <> CV_8UC1)
  /\ (r.2 = Thrown EmptyImage <-> empty img = true)
  /\ (r.2 = Thrown BadPixelFormat <-> empty img = false /\ type_ img <> CV_8UC1)
  /\ (empty img = false -> type_ img = CV_8UC1 ->
      r.2 = Returned (mkFrame (frame_counter_ p) cam img)
      /\ cerr r.1 = cerr p ++
           (if bool_decide (cols img = width cam /\ rows img = height cam)
            then [] else [size_warning])).
Proof.
  intros r. subst r. unfold Frame_ctor.
  pose proof (initFrame_cases (mkFrame (frame_counter_ p) cam Mat_default) img (cerr p)) as H.
  simpl in H.
  assert (Hdiff : forall A, @Thrown A EmptyImage <> Thrown BadPixelFormat).
  { intros A E. apply EmptyImage_not_BadPixelFormat. congruence. }
  destruct H as [(He & ->) | [(He & Ht & ->) | (He & Ht & ->)]]; simpl.
  - split; [split; eauto|]. split; [split; auto|]. split.
    + split; [intros E; destruct (Hdiff _ E) | intros [E _]; congruence].
    + congruence.
  - split; [split; eauto|]. split; [|split].
    + split; [intros E; symmetry in E; destruct (Hdiff _ E) | congruence].
    + split; auto.
    + congruence.
  - split; [|split; [|split]].
    + split; [intros [what E]; discriminate | intros [E|E]; congruence].
    + split; [discriminate | congruence].
    + split; [discriminate | intros [_ E]; congruence].
    + intros _ _. split; [reflexivity|].
      destruct (bool_decide _); [rewrite app_nil_r|]; reflexivity.
Qed.

(** Halving changes every size but 0. *)
Lemma quot2_fixed (a : Z) : a `quot` 2 = a -> a = 0.
Proof.
  intros H. pose proof (Z.quot_rem' a 2) as Hq. pose proof (Z.rem_sign_mul a 2) as Hs.
  rewrite H in Hq. nia.
Qed.

(** An [int] that stays in range is not changed by the wrap-around. *)
Lemma int_wrap_small (z : Z) : INT_MIN <= z <= INT_MAX -> int_wrap z = z.
Proof.
  unfold INT_MIN, INT_MAX, int_wrap. intros H.
  rewrite Z.mod_small by lia. lia.
Qed.

(** One construction: the counter moves on by one whether or not the frame
    is constructed, and a constructed frame carries the old value. *)
Lemma Frame_ctor_step (cam : AbstractCamera) (img : Mat) (p : Process) :
  INT_MIN <= frame_counter_ p -> frame_counter_ p < INT_MAX ->
  frame_counter_ (Frame_ctor cam img p).1 = frame_counter_ p + 1
  /\ forall f, (Frame_ctor cam img p).2 = Returned f ->
       f = mkFrame (frame_counter_ p) cam img /\ empty img = false.
Proof.
  intros Hlo Hhi. unfold Frame_ctor.
  pose proof (initFrame_cases (mkFrame (frame_counter_ p) cam Mat_default) img (cerr p)) as H.
  simpl in H.
  destruct H as [(He & ->) | [(He & Ht & ->) | (He & Ht & ->)]]; simpl;
    (split; [apply int_wrap_small; lia|]); intros f E; inversion E; auto.
Qed.

Lemma construct_all_spec (attempts : list (AbstractCamera * Mat)) :
  forall p : Process,
    INT_MIN <= frame_counter_ p ->
    frame_counter_ p + Z.of_nat (length attempts) <= INT_MAX ->
    let rs := (construct_all attempts p).2 in
    (forall (k : nat) f, rs !! k = Some (Returned f) -> id_ f = frame_counter_ p + Z.of_nat k)
    /\ Forall (fun a => frame_counter_ p <= a) (constructed_ids rs)
    /\ increasing (constructed_ids rs)
    /\ (Forall succeeded rs ->
        constructed_ids rs = (fun k => frame_counter_ p + Z.of_nat k) <$> seq 0 (length attempts)).
Proof.
  induction attempts as [|[cam img] rest IH]; intros p Hlo Hhi rs; subst rs.
  - simpl. repeat split; auto.
    + intros k f E. rewrite lookup_nil in E. discriminate.
    + intros i j a b _ E. rewrite lookup_nil in E. discriminate.
  - simpl in Hhi. simpl.
    destruct (Frame_ctor_step cam img p) as [Hc Hid]; [lia|lia|].
    destruct (Frame_ctor cam img p) as [p1 r] eqn:Hctor. simpl in Hc, Hid.
    specialize (IH p1). rewrite Hc in IH.
    destruct IH as (Hk & Hge & Hinc & Hall); [lia|lia|].
    destruct (construct_all rest p1) as [p2 rs] eqn:Hrest. simpl in *.
    split; [|split; [|split]].
    + intros [|k] f E; simpl in E.
      * inversion E; subst. destruct (Hid f eq_refl) as [-> _]. simpl. lia.
      * rewrite (Hk k f E). lia.
    + unfold constructed_ids in *. simpl. destruct r as [f|what]; simpl.
      * constructor; [destruct (Hid f eq_refl) as [-> _]; simpl; lia|].
        eapply Forall_impl; [exact Hge|]. simpl. intros; lia.
      * eapply Forall_impl; [exact Hge|]. simpl. intros; lia.
    + unfold constructed_ids in *. simpl. destruct r as [f|what]; simpl; [|exact Hinc].
      destruct (Hid f eq_refl) as [-> _]. simpl.
      intros [|i] [|j] a b Hij Ha Hb; simpl in *; try lia.
      * inversion Ha; subst. rewrite Forall_forall in Hge.
        apply list_elem_of_lookup_2, Hge in Hb. lia.
      * apply (Hinc i j); auto. lia.
    + intros Hs. inversion Hs as [|? ? [f ->] Hs']; subst.
      unfold constructed_ids in *. simpl.
      destruct (Hid f eq_refl) as [-> _]. simpl.
      rewrite Hall by exact Hs'. f_equal; [lia|].
      rewrite <- fmap_S_seq, <- list_fmap_compose. apply list_fmap_ext.
      intros _ k _. simpl. lia.
Qed.

(** C3 (as amended). As long as the counter does not overflow, the id of a
    constructed [Frame] is the counter's first value plus the number of
    construction attempts before it, failed ones included. So the ids of
    the constructed frames are strictly increasing, and they are without
    gaps when no attempt fails. *)
Theorem Frame_ids_count_attempts
    (attempts : list (AbstractCamera * Mat)) (p : Process) :
  INT_MIN <= frame_counter_ p ->
  frame_counter_ p + Z.of_nat (length attempts) <= INT_MAX ->
  let rs := (construct_all attempts p).2 in
  (forall (k : nat) f, rs !! k = Some (Returned f) -> id_ f = frame_counter_ p + Z.of_nat k)
  /\ increasing (constructed_ids rs)
  /\ (Forall succeeded rs -> gap_free (constructed_ids rs)).
Proof.
  intros Hlo Hhi rs.
  destruct (construct_all_spec attempts p Hlo Hhi) as (Hk & _ & Hinc & Hall).
  fold rs in Hk, Hinc, Hall.
  split; [exact Hk|]. split; [exact Hinc|].
  intros Hs i a b Ha Hb. rewrite Hall in Ha, Hb by exact Hs.
  rewrite list_lookup_fmap in Ha, Hb.
  destruct (seq 0 (length attempts) !! i) as [x|] eqn:Ei; [|discriminate].
  destruct (seq 0 (length attempts) !! S i) as [y|] eqn:Ej; [|discriminate].
  apply lookup_seq in Ei as [-> _]. apply lookup_seq in Ej as [-> _].
  simpl in Ha, Hb. inversion Ha; inversion Hb; subst. lia.
Qed.

(** C4 (as amended). A successful construction leaves a [Frame] with the
    next id, the camera and the supplied image, at full size, as its only
    image: it builds no pyramid. For no number of levels from 2 on does the
    frame hold the levels [createImgPyramid] makes of its image. *)
Theorem Frame_ctor_stores_image_only
    (cam : AbstractCamera) (img : Mat) (p p' : Process) (f : Frame) :
  Frame_ctor cam img p = (p', Returned f) ->
  f = mkFrame (frame_counter_ p) cam img
  /\ Frame_images f = [img]
  /\ forall (n : Z) (mem : PixelStore), 2 <= n -> ~ holds_pyramid f n mem.
Proof.
  intros Hctor.
  pose proof (initFrame_cases (mkFrame (frame_counter_ p) cam Mat_default) img (cerr p)) as H.
  unfold Frame_ctor in Hctor. simpl in H.
  destruct H as [(He & E) | [(He & Ht & E) | (He & Ht & E)]];
    rewrite E in Hctor; inversion Hctor; subst; clear Hctor E.
  split; [reflexivity|]. split; [reflexivity|].
  intros n mem Hn (pyr & mem' & Hrun & Hin). simpl in Hrun.
  destruct (createImgPyramid_level1 _ _ _ _ _ _ Hn Hrun) as (level & Hl & Hrows).
  apply list_elem_of_lookup_2, Hin in Hl. unfold Frame_images in Hl. simpl in Hl.
  apply list_elem_of_singleton in Hl. subst level.
  assert (Hz : rows img = 0) by (apply quot2_fixed; symmetry; exact Hrows).
  unfold empty, total in He. rewrite Hz in He. simpl in He.
  rewrite orb_true_r in He. discriminate.
Qed.

End FrameFacts.

(* ===================================================================== *)
(** * The statements on concrete inputs *)
(* ===================================================================== *)

Section Runs.
Import Scenario.
#[local] Open Scope float_scope.

(** Scenario S1 of the spec: anchors (1,0,0), (0,1,0), (-1,0,0), query
    (0.9, 0.1, 0) as the nearest doubles; the anchor (1,0,0) is returned. *)
Example getCloseViewObs_scenario_S1 :
  getCloseViewObs (point origin [2; 1; 0]%nat None)
    (V3 0x1.ccccccccccccdp-1 0x1.999999999999ap-4 0) None px0 = (true, Some 0%nat).
Proof. reflexivity. Qed.

(** Scenario S2, last query (-0.2, 0, 1): the best cosine is below 0.5. *)
Example getCloseViewObs_scenario_S2 :
  getCloseViewObs (point origin [2; 1; 0]%nat None)
    (V3 (-0x1.999999999999ap-3) 0 1) None px0 = (false, Some 2%nat).
Proof. reflexivity. Qed.

(** No observation: not found, and the reference keeps its value. *)
Example getCloseViewObs_no_observation :
  getCloseViewObs (point origin [] None) (V3 1 0 0) (Some 7%nat) px0 = (false, Some 7%nat).
Proof. reflexivity. Qed.

(** Scenario S4: observations a, b, c with reference patch b. *)
Example deleteNonRefPatchFeatures_scenario_S4 :
  let r := deleteNonRefPatchFeatures (point origin [0; 1; 2]%nat (Some 1%nat)) in
  obs_ r.1 = [1%nat] /\ r.2 = [0%nat; 2%nat].
Proof. split; reflexivity. Qed.

(** Scenario S6: scores 3, 3, 7 newest first; the newest is returned. *)
Example findMinScoreFeature_scenario_S6 :
  findMinScoreFeature (point origin [2; 1; 0]%nat None) origin = Some 2%nat.
Proof. reflexivity. Qed.

(** Deleting the reference patch clears it; only the first match leaves. *)
Example deleteFeatureRef_first_match :
  let r := deleteFeatureRef 1%nat (point origin [0; 1; 2; 1]%nat (Some 1%nat)) in
  obs_ r.1 = [0%nat; 2%nat; 1%nat] /\ ref_patch r.1 = None
  /\ has_ref_patch_ r.1 = false /\ r.2 = [1%nat].
Proof. repeat split; reflexivity. Qed.

(** Cosines -1 and 0, in this order: the call reports not found, and the
    feature left in the reference is the front one. *)
Example getCloseViewObs_writes_front_not_best :
  let vp := point origin [2; 1]%nat None in
  let q := V3 1 0 0 in
  getCloseViewObs vp q None px0 = (false, Some 2%nat)
  /\ (cos_angle (pos_ vp) q 2%nat <? cos_angle (pos_ vp) q 1%nat) = true.
Proof. split; reflexivity. Qed.

(** C2, counterexample. One observation, at a cosine of exactly 0.5: found. *)
Lemma getCloseViewObs_found_at_exactly_half :
  let vp := point origin [3]%nat None in
  let q := V3 2 0 0 in
  cos_angle (pos_ vp) q 3%nat = 0.5
  /\ getCloseViewObs vp q None px0 = (true, Some 3%nat)
  /\ (getCloseViewObs vp q None px0).1 <> false.
Proof. repeat split; try reflexivity. discriminate. Qed.

(** C2, the amended statement on that input. *)
Lemma getCloseViewObs_found_at_threshold_witness :
  obs_ (point origin [3]%nat None) = [3%nat]
  /\ cos_angle (pos_ (point origin [3]%nat None)) (V3 2 0 0) 3%nat = 0.5
  /\ getCloseViewObs (point origin [3]%nat None) (V3 2 0 0) None px0 = (true, Some 3%nat).
Proof.
  split; [reflexivity|]. split; [reflexivity|].
  apply (getCloseViewObs_found_at_threshold (point origin [3]%nat None) (V3 2 0 0) None px0 3%nat);
    reflexivity.
Defined.

(** C10 on a point with cosines -1 and 0, in this order: the front
    observation is written although the second has the greater cosine. *)
Lemma getCloseViewObs_always_writes_member_witness :
  let vp := point origin [2; 1]%nat None in
  let q := V3 1 0 0 in
  obs_ vp <> []
  /\ (forall o, o ∈ obs_ vp -> (cos_angle (pos_ vp) q o <=? 0) = true)
  /\ (exists f, (getCloseViewObs vp q None px0).2 = Some f /\ f ∈ obs_ vp)
  /\ getCloseViewObs vp q None px0 = (false, Some 2%nat)
  /\ (cos_angle (pos_ vp) q 2%nat <? cos_angle (pos_ vp) q 1%nat) = true.
Proof.
  intros vp q.
  assert (Hne : obs_ vp <> []) by discriminate.
  assert (Hle : forall o, o ∈ obs_ vp -> (cos_angle (pos_ vp) q o <=? 0) = true).
  { intros o Ho. apply list_elem_of_In in Ho. simpl in Ho.
    destruct Ho as [<-|[<-|[]]]; reflexivity. }
  destruct (getCloseViewObs_always_writes_member vp q None px0 Hne) as [Hmem Hfront].
  split; [exact Hne|]. split; [exact Hle|]. split; [exact Hmem|].
  split; [exact (Hfront Hle) | reflexivity].
Defined.

(** C7, counterexample. Scores +infinity and [FLT_MAX], in this order: the
    observation returned is the front one, and the other score is smaller. *)
Lemma findMinScoreFeature_returns_infinite_score :
  let vp := point origin [4; 5]%nat None in
  findMinScoreFeature vp origin = Some 4%nat
  /\ (score_ 5%nat <? score_ 4%nat) = true.
Proof. split; reflexivity. Qed.

(** C7, the amended statement on scores 3, 3, 7 (newest first). *)
Lemma findMinScoreFeature_first_minimum_witness :
  let vp := point origin [2; 1; 0]%nat None in
  obs_ vp <> []
  /\ Forall (fun o => (score_ o <=? FLT_MAX) = true) (obs_ vp)
  /\ exists pre sel post,
      obs_ vp = pre ++ sel :: post
      /\ findMinScoreFeature vp origin = Some sel
      /\ (forall o, o ∈ obs_ vp -> (score_ sel <=? score_ o) = true)
      /\ (forall o, o ∈ pre -> (score_ sel <? score_ o) = true).
Proof.
  intros vp.
  assert (Hne : obs_ vp <> []) by discriminate.
  assert (Hmax : Forall (fun o => (score_ o <=? FLT_MAX) = true) (obs_ vp)).
  { repeat constructor. }
  split; [exact Hne|]. split; [exact Hmax|].
  exact (proj1 (findMinScoreFeature_first_minimum vp origin Hne Hmax)).
Defined.

End Runs.

Section FrameRuns.
Import Scenario frame_utils.
#[local] Open Scope Z_scope.

(** A grey image of another size than the camera model's: warned about,
    and constructed with the image as supplied. *)
Example Frame_ctor_size_mismatch :
  Frame_ctor cam4 img2 process0
  = (mkProcess 1 [size_warning], Returned (mkFrame 0 cam4 img2)).
Proof. reflexivity. Qed.

(** A three-channel image and an empty image: both throw, both use up an id. *)
Example Frame_ctor_rejects :
  Frame_ctor cam4 img_bgr process0 = (mkProcess 1 [], Thrown BadPixelFormat)
  /\ Frame_ctor cam4 img_none process0 = (mkProcess 1 [], Thrown EmptyImage).
Proof. split; reflexivity. Qed.

(** At [INT_MAX] the counter wraps to [INT_MIN]. *)
Example Frame_ctor_counter_wraps :
  frame_counter_ (Frame_ctor cam4 img4 (mkProcess INT_MAX [])).1 = INT_MIN.
Proof. reflexivity. Qed.

(** One level: the pyramid is the input, and no buffer is allocated. *)
Example createImgPyramid_one_level :
  createImgPyramid img4 1 [img2; img2] store0 = Some ([img4], store0).
Proof. reflexivity. Qed.

(** No level: no result. *)
Example createImgPyramid_no_level :
  createImgPyramid img4 0 [] store0 = None.
Proof. reflexivity. Qed.

(** C3, counterexample. A failed attempt between two constructions: the
    ids are 0 and 2. *)
Lemma Frame_ids_skip_failed_attempt :
  let rs := (construct_all [(cam4, img4); (cam4, img_none); (cam4, img4)] process0).2 in
  constructed_ids rs = [0; 2] /\ ~ gap_free (constructed_ids rs).
Proof.
  split; [reflexivity|].
  intros H. specialize (H 0%nat 0 2 eq_refl eq_refl). discriminate.
Qed.

(** C3, the amended statement on the same attempts. *)
Lemma Frame_ids_count_attempts_witness :
  let attempts := [(cam4, img4); (cam4, img_none); (cam4, img4)] in
  let rs := (construct_all attempts process0).2 in
  INT_MIN <= frame_counter_ process0
  /\ frame_counter_ process0 + Z.of_nat (length attempts) <= INT_MAX
  /\ (forall (k : nat) f, rs !! k = Some (Returned f) -> id_ f = frame_counter_ process0 + Z.of_nat k)
  /\ increasing (constructed_ids rs)
  /\ (Forall succeeded rs -> gap_free (constructed_ids rs)).
Proof.
  intros attempts rs.
  assert (Hlo : INT_MIN <= frame_counter_ process0) by (vm_compute; discriminate).
  assert (Hhi : frame_counter_ process0 + Z.of_nat (length attempts) <= INT_MAX)
    by (vm_compute; discriminate).
  split; [exact Hlo|]. split; [exact Hhi|].
  exact (Frame_ids_count_attempts attempts process0 Hlo Hhi).
Defined.

(** C4, counterexample. The frame constructed from a 4x4 image holds that
    image; the four levels of its pyramid are not among its images. *)
Lemma Frame_holds_one_image_of_four_levels :
  Frame_ctor cam4 img4 process0 = (mkProcess 1 [], Returned (mkFrame 0 cam4 img4))
  /\ createImgPyramid img4 4 [] store0
     = Some ([img4; mkMat 2 2 CV_8U (Some 2%nat); mkMat 1 1 CV_8U (Some 3%nat);
              mkMat 0 0 CV_8U None],
             store0 ++ [[35; 55; 115; 135]; [85]])
  /\ ~ holds_pyramid (mkFrame 0 cam4 img4) 4 store0.
Proof.
  split; [reflexivity|]. split; [reflexivity|].
  intros (pyr & mem' & Hrun & Hin).
  vm_compute in Hrun. inversion Hrun; subst; clear Hrun.
  specialize (Hin (mkMat 2 2 0 (Some 2%nat))).
  assert (Hl : mkMat 2 2 0 (Some 2%nat) ∈ Frame_images (mkFrame 0 cam4 img4)).
  { apply Hin. right. left. }
  apply list_elem_of_singleton in Hl. discriminate.
Qed.

(** C4, the amended statement on the same input. *)
Lemma Frame_ctor_stores_image_only_witness :
  Frame_ctor cam4 img4 process0 = (mkProcess 1 [], Returned (mkFrame 0 cam4 img4))
  /\ Frame_images (mkFrame 0 cam4 img4) = [img4]
  /\ forall (n : Z) (mem : PixelStore), 2 <= n -> ~ holds_pyramid (mkFrame 0 cam4 img4) n mem.
Proof.
  assert (H : Frame_ctor cam4 img4 process0 = (mkProcess 1 [], Returned (mkFrame 0 cam4 img4)))
    by reflexivity.
  split; [exact H|].
  exact (proj2 (Frame_ctor_stores_image_only cam4 img4 process0 _ _ H)).
Defined.

(** C5 on a 4x4 image and four levels. *)
Lemma createImgPyramid_levels_witness :
  empty img4 = false /\ type_ img4 = CV_8UC1 /\ in_store store0 img4 /\ 1 <= 4
  /\ exists pyr' mem',
    createImgPyramid img4 4 [] store0 = Some (pyr', mem')
    /\ length pyr' = Z.to_nat 4
    /\ pyr' !! 0%nat = Some img4
    /\ pixels mem' img4 = pixels store0 img4
    /\ forall k prev level, pyr' !! k = Some prev -> pyr' !! S k = Some level ->
         rows level = rows prev / 2 /\ cols level = cols prev / 2
         /\ forall y x, 0 <= y < rows level -> 0 <= x < cols level ->
              at_ mem' level y x = vk.box mem' prev y x.
Proof.
  assert (He : empty img4 = false) by reflexivity.
  assert (Ht : type_ img4 = CV_8UC1) by reflexivity.
  assert (Hs : in_store store0 img4).
  { repeat split; simpl; try lia. intros a [= <-]. lia. }
  assert (Hn : 1 <= 4) by lia.
  split; [exact He|]. split; [exact Ht|]. split; [exact Hs|]. split; [exact Hn|].
  exact (createImgPyramid_levels img4 4 [] store0 He Ht Hs Hn).
Defined.

End FrameRuns.

(* ===================================================================== *)
(** * More about IEEE-754 zeros *)
(* ===================================================================== *)

Module DoubleZero.
Import SpecFloat.
#[local] Open Scope float_scope.

Lemma eqb_zero (a : float) : (a =? 0) = true -> exists s, Prim2SF a = S754_zero s.
Proof.
  rewrite FloatAxioms.eqb_spec. change (Prim2SF 0) with (S754_zero false).
  unfold SFeqb, SFcompare. destruct (Prim2SF a) as [s| [|] | |[|] m e]; try discriminate.
  eauto.
Qed.

Lemma mul_zero_l (a b : float) : (a =? 0) = true -> zero_or_nan (a * b).
Proof.
  intros Ha. apply eqb_zero in Ha as [s Ha]. unfold zero_or_nan.
  rewrite mul_spec, Ha. unfold SF64mul, SFmul. destruct (Prim2SF b); exact I.
Qed.

Lemma add_zero_or_nan (a b : float) : zero_or_nan a -> zero_or_nan b -> zero_or_nan (a + b).
Proof.
  unfold zero_or_nan. rewrite add_spec. unfold SF64add, SFadd.
  destruct (Prim2SF a) as [sa| | |]; try contradiction;
    destruct (Prim2SF b) as [sb| | |]; try contradiction; intros _ _; try exact I.
  destruct sa, sb; exact I.
Qed.

Lemma zero_or_nan_not_pos (c : float) : zero_or_nan c -> (0 <? c) = false.
Proof.
  unfold zero_or_nan. rewrite ltb_spec. change (Prim2SF 0) with (S754_zero false).
  unfold SFltb, SFcompare. destruct (Prim2SF c); try contradiction; reflexivity.
Qed.

(** A finite number minus itself is a zero. *)
Lemma sub_self (a : float) : is_finite a = true -> (a - a =? 0) = true.
Proof.
  unfold is_finite, is_nan, is_infinity. rewrite !FloatAxioms.eqb_spec, abs_spec, sub_spec.
  change (Prim2SF infinity) with (S754_infinity false).
  change (Prim2SF 0) with (S754_zero false).
  unfold SF64sub, SFsub, SFeqb, SFcompare, SFabs.
  destruct (Prim2SF a) as [[|]|[|]| |s m e]; simpl; try discriminate; try reflexivity.
  intros _. rewrite Z.sub_diag. reflexivity.
Qed.

End DoubleZero.

(* ===================================================================== *)
(** * More facts about visual_point.cpp *)
(* ===================================================================== *)

Section VisualPointMore.
Context `{FA : FeatureAccess}.
#[local] Open Scope float_scope.

(** ** More about [deleteFeatureRef] *)

Lemma deleteFeatureRef_scan_miss (ftr : Feature) (its : list Feature) :
  ftr ∉ its -> deleteFeatureRef_scan ftr its = (its, []).
Proof.
  induction its as [|it rest IH]; intros Hnot; simpl; [reflexivity|].
  rewrite not_elem_of_cons in Hnot. destruct Hnot as [Hne Hrest].
  rewrite decide_False by auto. rewrite IH by exact Hrest. reflexivity.
Qed.

Lemma deleteFeatureRef_scan_first (ftr : Feature) (pre post : list Feature) :
  ftr ∉ pre -> deleteFeatureRef_scan ftr (pre ++ ftr :: post) = (pre ++ post, [ftr]).
Proof.
  induction pre as [|it pre IH]; intros Hnot; simpl.
  - rewrite decide_True by reflexivity. reflexivity.
  - rewrite not_elem_of_cons in Hnot. destruct Hnot as [Hne Hrest].
    rewrite decide_False by auto. rewrite IH by exact Hrest. reflexivity.
Qed.

(** The list [deleteFeatureRef] scans is the list of the point. *)
Lemma deleteFeatureRef_obs (ftr : Feature) (vp : VisualPoint) :
  obs_ (deleteFeatureRef ftr vp).1 = (deleteFeatureRef_scan ftr (obs_ vp)).1
  /\ (deleteFeatureRef ftr vp).2 = (deleteFeatureRef_scan ftr (obs_ vp)).2.
Proof.
  unfold deleteFeatureRef.
  destruct (decide (ref_patch vp = Some ftr)); simpl;
    destruct (deleteFeatureRef_scan ftr (obs_ vp)); simpl; auto.
Qed.

(** What [deleteFeatureRef] does to the reference patch and its flag. *)
Lemma deleteFeatureRef_ref (ftr : Feature) (vp : VisualPoint) :
  (ref_patch vp = Some ftr ->
     ref_patch (deleteFeatureRef ftr vp).1 = None
     /\ has_ref_patch_ (deleteFeatureRef ftr vp).1 = false)
  /\ (ref_patch vp <> Some ftr ->
     ref_patch (deleteFeatureRef ftr vp).1 = ref_patch vp
     /\ has_ref_patch_ (deleteFeatureRef ftr vp).1 = has_ref_patch_ vp).
Proof.
  unfold deleteFeatureRef.
  destruct (decide (ref_patch vp = Some ftr)) as [E|E]; simpl;
    destruct (deleteFeatureRef_scan ftr _); simpl; split; intros H; auto; contradiction.
Qed.

(** X1. [deleteFeatureRef] of a feature that is not in the observation
    list releases nothing and leaves the list and the geometry as they
    were; the point is unchanged altogether unless the feature is the
    reference patch, which is then cleared together with its flag. *)
Theorem deleteFeatureRef_absent_is_noop (ftr : Feature) (vp : VisualPoint) :
  ftr ∉ obs_ vp ->
  obs_ (deleteFeatureRef ftr vp).1 = obs_ vp
  /\ (deleteFeatureRef ftr vp).2 = []
  /\ geometry (deleteFeatureRef ftr vp).1 = geometry vp
  /\ (ref_patch vp <> Some ftr -> (deleteFeatureRef ftr vp).1 = vp)
  /\ (ref_patch vp = Some ftr ->
        ref_patch (deleteFeatureRef ftr vp).1 = None
        /\ has_ref_patch_ (deleteFeatureRef ftr vp).1 = false).
Proof.
  intros Hnot.
  destruct (deleteFeatureRef_obs ftr vp) as [Ho Hr].
  rewrite deleteFeatureRef_scan_miss in Ho, Hr by exact Hnot. simpl in Ho, Hr.
  split; [exact Ho|]. split; [exact Hr|]. split; [|split].
  - unfold deleteFeatureRef, geometry.
    destruct (decide (ref_patch vp = Some ftr)); simpl;
      destruct (deleteFeatureRef_scan ftr _); reflexivity.
  - intros Hne. unfold deleteFeatureRef. rewrite decide_False by exact Hne.
    rewrite deleteFeatureRef_scan_miss by exact Hnot. destruct vp; reflexivity.
  - apply deleteFeatureRef_ref.
Qed.

(** X2. [deleteFeatureRef] erases the first occurrence of the feature and
    nothing else: the entries before and after it keep their order, that
    one pointer is released, and the list is one entry shorter. *)
Theorem deleteFeatureRef_erases_first_occurrence
    (ftr : Feature) (vp : VisualPoint) (pre post : list Feature) :
  obs_ vp = pre ++ ftr :: post -> ftr ∉ pre ->
  obs_ (deleteFeatureRef ftr vp).1 = pre ++ post
  /\ (deleteFeatureRef ftr vp).2 = [ftr]
  /\ length (obs_ (deleteFeatureRef ftr vp).1) = Nat.pred (length (obs_ vp)).
Proof.
  intros Hobs Hnot.
  destruct (deleteFeatureRef_obs ftr vp) as [Ho Hr].
  rewrite Hobs, deleteFeatureRef_scan_first in Ho, Hr by exact Hnot. simpl in Ho, Hr.
  split; [exact Ho|]. split; [exact Hr|].
  rewrite Ho, Hobs, !length_app. simpl. lia.
Qed.

(** X3. On a list without duplicates [deleteFeatureRef] leaves no released
    pointer behind: the list stays without duplicates, what was released is
    no longer in it, every old entry is either still there or released,
    and the reference patch is not the feature. *)
Theorem deleteFeatureRef_leaves_no_dangling (ftr : Feature) (vp : VisualPoint) :
  NoDup (obs_ vp) ->
  let r := deleteFeatureRef ftr vp in
  NoDup (obs_ r.1)
  /\ (forall o, o ∈ r.2 -> o ∉ obs_ r.1)
  /\ (forall o, o ∈ obs_ vp <-> o ∈ obs_ r.1 \/ o ∈ r.2)
  /\ ref_patch r.1 <> Some ftr.
Proof.
  intros Hnd r. subst r.
  destruct (deleteFeatureRef_obs ftr vp) as [Ho Hr].
  assert (Href : ref_patch (deleteFeatureRef ftr vp).1 <> Some ftr).
  { destruct (deleteFeatureRef_ref ftr vp) as [H1 H2].
    destruct (decide (ref_patch vp = Some ftr)) as [E|E].
    - destruct (H1 E) as [-> _]. discriminate.
    - destruct (H2 E) as [-> _]. exact E. }
  destruct (decide (ftr ∈ obs_ vp)) as [Hin|Hnot].
  - apply list_elem_of_split in Hin as (pre & post & Hsplit).
    rewrite Hsplit in Hnd. apply NoDup_app in Hnd as (Hpre & Hdisj & Hpost).
    apply NoDup_cons in Hpost as [Hfp Hpost].
    assert (Hnp : ftr ∉ pre). { intros Hc. apply (Hdisj _ Hc). left. }
    rewrite Hsplit, deleteFeatureRef_scan_first in Ho, Hr by exact Hnp. simpl in Ho, Hr.
    rewrite Ho, Hr, Hsplit. split; [|split; [|split]]; [| | |exact Href].
    + apply NoDup_app. split; [exact Hpre|]. split; [|exact Hpost].
      intros o Hop Hc. apply (Hdisj _ Hop). right. exact Hc.
    + intros o Hof. apply list_elem_of_singleton in Hof. subst o.
      rewrite elem_of_app. intros [Hc|Hc]; auto.
    + intros o. rewrite !elem_of_app, elem_of_cons, list_elem_of_singleton. tauto.
  - rewrite deleteFeatureRef_scan_miss in Ho, Hr by exact Hnot. simpl in Ho, Hr.
    rewrite Ho, Hr. split; [exact Hnd|]. split; [|split]; [| |exact Href].
    + intros o Hc. inversion Hc.
    + intros o. split; [auto|]. intros [H|H]; [exact H|inversion H].
Qed.

(** X4. [addFrameRef] does not check for duplicates: after adding a
    feature twice the list has a duplicate, and one [deleteFeatureRef]
    releases the feature while an entry for it stays in the list. *)
Theorem addFrameRef_twice_leaves_released_pointer (f : Feature) (vp : VisualPoint) :
  let r := deleteFeatureRef f (addFrameRef f (addFrameRef f vp)) in
  obs_ r.1 = f :: obs_ vp /\ r.2 = [f] /\ f ∈ obs_ r.1 /\ ~ NoDup (obs_ (addFrameRef f (addFrameRef f vp))).
Proof.
  intros r. subst r.
  destruct (deleteFeatureRef_obs f (addFrameRef f (addFrameRef f vp))) as [Ho Hr].
  simpl in Ho, Hr. rewrite decide_True in Ho, Hr by reflexivity. simpl in Ho, Hr.
  rewrite Ho, Hr. split; [reflexivity|]. split; [reflexivity|]. split; [left|].
  intros Hnd. simpl in Hnd. apply NoDup_cons in Hnd as [Hc _]. apply Hc. left.
Qed.

(** X5. If the flag says whether there is a reference patch and the
    reference patch is one of the observations, the same holds after
    [addFrameRef], after [deleteFeatureRef] and after
    [deleteNonRefPatchFeatures]. *)
Theorem ref_patch_consistent_preserved (vp : VisualPoint) (f : Feature) :
  ref_patch_consistent vp ->
  ref_patch_consistent (addFrameRef f vp)
  /\ ref_patch_consistent (deleteFeatureRef f vp).1
  /\ ref_patch_consistent (deleteNonRefPatchFeatures vp).1.
Proof.
  intros [Hflag Hmem]. split; [|split].
  - split; [exact Hflag|]. intros r Hr. simpl. right. apply Hmem, Hr.
  - destruct (deleteFeatureRef_ref f vp) as [H1 H2].
    destruct (deleteFeatureRef_obs f vp) as [Ho _].
    destruct (decide (ref_patch vp = Some f)) as [E|E].
    + destruct (H1 E) as [Hr Hf]. split.
      * rewrite Hr, Hf. split; [discriminate|congruence].
      * intros r. rewrite Hr. discriminate.
    + destruct (H2 E) as [Hr Hf]. split.
      * rewrite Hr, Hf. exact Hflag.
      * intros r Hrr. rewrite Hr in Hrr. rewrite Ho.
        assert (Hne : r <> f) by congruence.
        specialize (Hmem r Hrr). clear -Hmem Hne.
        induction (obs_ vp) as [|it rest IH]; [inversion Hmem|]. simpl.
        destruct (decide (it = f)) as [->|Hit].
        -- apply elem_of_cons in Hmem as [Hc|Hc]; [contradiction|exact Hc].
        -- destruct (deleteFeatureRef_scan f rest) as [kept released] eqn:Hs. simpl in *.
           apply elem_of_cons in Hmem as [->|Hc]; [left|right; auto].
  - unfold deleteNonRefPatchFeatures.
    pose proof (deleteNonRefPatchFeatures_scan_spec (ref_patch vp) (obs_ vp)) as [H1 _].
    destruct (deleteNonRefPatchFeatures_scan (ref_patch vp) (obs_ vp)) as [kept released].
    simpl in *. subst kept. split; [exact Hflag|].
    intros r Hr. apply list_elem_of_filter. split; [auto|apply Hmem, Hr].
Qed.

(** Without duplicates, the erased feature is gone. *)
Lemma deleteFeatureRef_scan_gone (ftr : Feature) (its : list Feature) :
  NoDup its -> ftr ∉ (deleteFeatureRef_scan ftr its).1.
Proof.
  induction 1 as [|it rest Hnot Hnd IH]; simpl; [apply not_elem_of_nil|].
  destruct (decide (it = ftr)) as [->|Hne]; simpl; [exact Hnot|].
  destruct (deleteFeatureRef_scan ftr rest) as [kept released]. simpl in *.
  apply not_elem_of_cons. split; [congruence | exact IH].
Qed.

(** ** More about [deleteNonRefPatchFeatures] *)

Lemma deleteNonRefPatchFeatures_obs (vp : VisualPoint) :
  obs_ (deleteNonRefPatchFeatures vp).1 = filter (fun o => Some o = ref_patch vp) (obs_ vp)
  /\ (deleteNonRefPatchFeatures vp).2 = filter (fun o => Some o <> ref_patch vp) (obs_ vp)
  /\ ref_patch (deleteNonRefPatchFeatures vp).1 = ref_patch vp
  /\ has_ref_patch_ (deleteNonRefPatchFeatures vp).1 = has_ref_patch_ vp
  /\ geometry (deleteNonRefPatchFeatures vp).1 = geometry vp.
Proof.
  unfold deleteNonRefPatchFeatures.
  pose proof (deleteNonRefPatchFeatures_scan_spec (ref_patch vp) (obs_ vp)) as [H1 H2].
  destruct (deleteNonRefPatchFeatures_scan (ref_patch vp) (obs_ vp)) as [kept released].
  simpl in *. subst. repeat split.
Qed.

Lemma filter_keep_all {A} (P : A -> Prop) `{!forall x, Decision (P x)} (l : list A) :
  Forall P l -> filter P l = l.
Proof.
  induction 1 as [|x l Hx Hl IH]; [reflexivity|].
  rewrite filter_cons, decide_True by exact Hx. rewrite IH. reflexivity.
Qed.

Lemma filter_drop_all {A} (P : A -> Prop) `{!forall x, Decision (P x)} (l : list A) :
  Forall (fun x => ~ P x) l -> filter P l = [].
Proof.
  induction 1 as [|x l Hx Hl IH]; [reflexivity|].
  rewrite filter_cons, decide_False by exact Hx. exact IH.
Qed.

(** X6. [deleteNonRefPatchFeatures] twice is [deleteNonRefPatchFeatures]
    once: the second call changes nothing and releases nothing. *)
Theorem deleteNonRefPatchFeatures_idempotent (vp : VisualPoint) :
  let once := deleteNonRefPatchFeatures vp in
  let twice := deleteNonRefPatchFeatures once.1 in
  twice.1 = once.1 /\ twice.2 = [].
Proof.
  intros once twice. subst once twice.
  destruct (deleteNonRefPatchFeatures_obs vp) as (Ho & _ & Hr & _ & _).
  set (vp1 := (deleteNonRefPatchFeatures vp).1) in *.
  assert (Hall : Forall (fun o => Some o = ref_patch vp1) (obs_ vp1)).
  { rewrite Hr, Ho. apply Forall_forall. intros o Hin.
    apply list_elem_of_filter in Hin as [E _]. exact E. }
  destruct (deleteNonRefPatchFeatures_obs vp1) as (Ho2 & Hd2 & Hr2 & Hf2 & Hg2).
  rewrite filter_keep_all in Ho2 by exact Hall.
  rewrite filter_drop_all in Hd2.
  2:{ eapply Forall_impl; [exact Hall|]. simpl. intros o E Hc. exact (Hc E). }
  split; [|exact Hd2].
  unfold geometry in Hg2.
  destruct (deleteNonRefPatchFeatures vp1).1, vp1; simpl in *. congruence.
Qed.

(** X7. On a list without duplicates [deleteNonRefPatchFeatures] releases
    no pointer twice, keeps no pointer it released, and keeps at most one
    entry: exactly the reference patch when it is one of the observations,
    and none when it is not. *)
Theorem deleteNonRefPatchFeatures_keeps_one (vp : VisualPoint) :
  NoDup (obs_ vp) ->
  let r := deleteNonRefPatchFeatures vp in
  NoDup r.2
  /\ (forall o, o ∈ r.2 -> o ∉ obs_ r.1)
  /\ (forall f, ref_patch vp = Some f -> f ∈ obs_ vp -> obs_ r.1 = [f])
  /\ ((forall f, ref_patch vp = Some f -> f ∉ obs_ vp) -> obs_ r.1 = []).
Proof.
  intros Hnd r. subst r.
  destruct (deleteNonRefPatchFeatures_obs vp) as (Ho & Hd & _).
  rewrite Ho, Hd. clear Ho Hd.
  split; [apply NoDup_filter, Hnd|]. split; [|split].
  - intros o Hd Hk. apply list_elem_of_filter in Hd as [Hne _].
    apply list_elem_of_filter in Hk as [He _]. auto.
  - intros f Href Hin. rewrite Href.
    apply list_elem_of_split in Hin as (pre & post & Hsplit).
    rewrite Hsplit in Hnd |- *.
    apply NoDup_app in Hnd as (_ & Hdisj & Hpost).
    apply NoDup_cons in Hpost as [Hfp _].
    rewrite filter_app, filter_cons, decide_True by reflexivity.
    rewrite !filter_drop_all; [reflexivity| |].
    + apply Forall_forall. intros o Ho [= ->]. contradiction.
    + apply Forall_forall. intros o Ho [= ->]. apply (Hdisj _ Ho). left.
  - intros Hno. apply filter_drop_all, Forall_forall. intros o Ho E.
    symmetry in E. exact (Hno o E Ho).
Qed.

(** ** The found flag of [getCloseViewObs] *)

(** Found means that some observation has a cosine of at least 0.5, and
    the observation written is then one of those. *)
Lemma getCloseViewObs_found_iff
    (vp : VisualPoint) (framepos : Vector3d) (ftr : option Feature) (cur_px : float * float) :
  ((getCloseViewObs vp framepos ftr cur_px).1 = true <->
     exists o, o ∈ obs_ vp /\ (0.5 <=? cos_angle (pos_ vp) framepos o) = true)
  /\ ((getCloseViewObs vp framepos ftr cur_px).1 = true ->
     exists sel, (getCloseViewObs vp framepos ftr cur_px).2 = Some sel
       /\ sel ∈ obs_ vp /\ (0.5 <=? cos_angle (pos_ vp) framepos sel) = true).
Proof.
  unfold getCloseViewObs.
  destruct (obs_ vp) as [|b rest] eqn:Hobs.
  { simpl. split; [split|]; try discriminate. intros (o & Ho & _). inversion Ho. }
  destruct (getCloseViewObs_loop (pos_ vp) framepos (b :: rest) b 0) as [sel m'] eqn:Hrun.
  apply getCloseViewObs_loop_spec in Hrun.
  destruct Hrun as [(-> & -> & Hall) | (pre & post & Hsplit & -> & Hpos & Hpre & Hall)];
    rewrite Forall_forall in Hall.
  - change (0 <? 0.5) with true. simpl. split; [split|]; try discriminate.
    intros (o & Ho & E). apply Double.threshold_pos in E.
    rewrite Hall in E by exact Ho. discriminate.
  - assert (Hsel : sel ∈ b :: rest).
    { rewrite Hsplit. apply elem_of_app. right. constructor. }
    assert (Hnum : (cos_angle (pos_ vp) framepos sel <=? cos_angle (pos_ vp) framepos sel) = true).
    { eapply Double.leb_refl_r, Double.ltb_leb, Hpos. }
    destruct (cos_angle (pos_ vp) framepos sel <? 0.5) eqn:Hthr; simpl.
    + split; [split|]; try discriminate.
      intros (o & Ho & E). specialize (Hall o Ho).
      rewrite (Double.ltb_leb_trans _ _ _ Hthr E) in Hall. discriminate.
    + pose proof (Double.threshold_reached _ Hnum Hthr) as Hok.
      split; [split; [intros _; eauto | reflexivity]|].
      intros _. eauto.
Qed.

(** X11. When [getCloseViewObs] reports found, the feature it has written
    is one of the observations and its own cosine is at least 0.5. *)
Theorem getCloseViewObs_found_within_threshold
    (vp : VisualPoint) (framepos : Vector3d) (ftr : option Feature) (cur_px : float * float)
    (sel : option Feature) :
  getCloseViewObs vp framepos ftr cur_px = (true, sel) ->
  exists f, sel = Some f /\ f ∈ obs_ vp
    /\ (0.5 <=? cos_angle (pos_ vp) framepos f) = true
    /\ (0 <? cos_angle (pos_ vp) framepos f) = true.
Proof.
  intros Hrun.
  destruct (getCloseViewObs_found_iff vp framepos ftr cur_px) as [_ Hsel].
  rewrite Hrun in Hsel. simpl in Hsel.
  destruct (Hsel eq_refl) as (f & -> & Hin & Hle).
  exists f. repeat split; auto using Double.threshold_pos.
Qed.

(** X12. Whether [getCloseViewObs] reports found depends on the position
    of the point and on which observations it has, not on their order in
    the list, nor on the incoming [ftr], on [cur_px] or on any other
    member of the point. *)
Theorem getCloseViewObs_found_order_independent
    (vp1 vp2 : VisualPoint) (framepos : Vector3d) (ftr1 ftr2 : option Feature)
    (px1 px2 : float * float) :
  pos_ vp1 = pos_ vp2 -> obs_ vp1 ≡ₚ obs_ vp2 ->
  (getCloseViewObs vp1 framepos ftr1 px1).1 = (getCloseViewObs vp2 framepos ftr2 px2).1.
Proof.
  intros Hpos Hperm.
  destruct (getCloseViewObs_found_iff vp1 framepos ftr1 px1) as [H1 _].
  destruct (getCloseViewObs_found_iff vp2 framepos ftr2 px2) as [H2 _].
  rewrite Hpos in H1.
  assert (Hiff : (getCloseViewObs vp1 framepos ftr1 px1).1 = true
                 <-> (getCloseViewObs vp2 framepos ftr2 px2).1 = true).
  { rewrite H1, H2. split; intros (o & Ho & E); exists o; split; auto.
    - rewrite <- Hperm. exact Ho.
    - rewrite Hperm. exact Ho. }
  destruct (getCloseViewObs vp1 framepos ftr1 px1).1, (getCloseViewObs vp2 framepos ftr2 px2).1;
    try reflexivity.
  - symmetry. apply Hiff. reflexivity.
  - apply Hiff. reflexivity.
Qed.

(** X13. After [addFrameRef] of a feature, [getCloseViewObs] reports found
    exactly when it did before or the new feature's cosine is at least
    0.5: adding an observation never loses a match. *)
Theorem getCloseViewObs_found_after_addFrameRef
    (vp : VisualPoint) (framepos : Vector3d) (ftr ftr' : option Feature)
    (cur_px : float * float) (f : Feature) :
  ((getCloseViewObs vp framepos ftr cur_px).1 = true ->
     (getCloseViewObs (addFrameRef f vp) framepos ftr' cur_px).1 = true)
  /\ ((0.5 <=? cos_angle (pos_ vp) framepos f) = true ->
     (getCloseViewObs (addFrameRef f vp) framepos ftr' cur_px).1 = true)
  /\ ((getCloseViewObs (addFrameRef f vp) framepos ftr' cur_px).1 = true ->
     (0.5 <=? cos_angle (pos_ vp) framepos f) = true
     \/ (getCloseViewObs vp framepos ftr cur_px).1 = true).
Proof.
  destruct (getCloseViewObs_found_iff vp framepos ftr cur_px) as [H1 _].
  destruct (getCloseViewObs_found_iff (addFrameRef f vp) framepos ftr' cur_px) as [H2 _].
  simpl in H2. rewrite H1, H2. split; [|split].
  - intros (o & Ho & E). exists o. split; [right; exact Ho | exact E].
  - intros E. exists f. split; [left | exact E].
  - intros (o & Ho & E). apply elem_of_cons in Ho as [->|Ho]; [left; exact E | right; eauto].
Qed.

(** X10. After [deleteNonRefPatchFeatures] on a point whose reference
    patch is one of its observations, [findMinScoreFeature] returns the
    reference patch, and [getCloseViewObs] writes the reference patch and
    reports found exactly when the cosine of the reference patch is at
    least 0.5. *)
Theorem deleteNonRefPatchFeatures_then_select
    (vp : VisualPoint) (r : Feature) (framepos : Vector3d) (ftr : option Feature)
    (cur_px : float * float) :
  ref_patch vp = Some r -> r ∈ obs_ vp ->
  let vp' := (deleteNonRefPatchFeatures vp).1 in
  findMinScoreFeature vp' framepos = Some r
  /\ getCloseViewObs vp' framepos ftr cur_px
     = (0.5 <=? cos_angle (pos_ vp) framepos r, Some r).
Proof.
  intros Href Hin vp'. subst vp'.
  destruct (deleteNonRefPatchFeatures_obs vp) as (Ho & _ & _ & _ & Hg).
  set (vp' := (deleteNonRefPatchFeatures vp).1) in *.
  assert (Hpos : pos_ vp' = pos_ vp) by (unfold geometry in Hg; congruence).
  assert (Hall : forall o, o ∈ obs_ vp' -> o = r).
  { intros o Ho'. rewrite Ho in Ho'. apply list_elem_of_filter in Ho' as [E _].
    rewrite Href in E. congruence. }
  assert (Hne : obs_ vp' <> []).
  { intros E. assert (Hr : r ∈ obs_ vp').
    { rewrite Ho. apply list_elem_of_filter. split; [symmetry; exact Href | exact Hin]. }
    rewrite E in Hr. inversion Hr. }
  split.
  - unfold findMinScoreFeature.
    destruct (obs_ vp') as [|b rest] eqn:Hobs; [congruence|]. f_equal.
    assert (Hb : b = r) by (apply Hall; left).
    assert (Hgen : forall its min_it m, Forall (fun o => o = r) its -> min_it = r ->
               (findMinScoreFeature_loop its min_it m).1 = r).
    { induction its as [|it its IH]; intros min_it m Hf Hm; simpl; [exact Hm|].
      inversion Hf; subst. destruct (_ <? m); apply IH; auto. }
    apply Hgen; [|exact Hb]. apply Forall_forall. exact Hall.
  - unfold getCloseViewObs. rewrite Hpos.
    destruct (obs_ vp') as [|b rest] eqn:Hobs; [congruence|].
    assert (Hb : b = r) by (apply Hall; left). subst b.
    set (c := cos_angle (pos_ vp) framepos r).
    assert (Hgen : forall its m, Forall (fun o => o = r) its ->
               getCloseViewObs_loop (pos_ vp) framepos its r m
               = (r, if existsb (fun _ => true) its then (if m <? c then c else m) else m)).
    { induction its as [|it its IH]; intros m Hf; simpl; [reflexivity|].
      inversion Hf; subst. fold c. destruct (m <? c) eqn:E.
      - rewrite IH by assumption. rewrite Double.ltb_irrefl.
        destruct (existsb _ its); reflexivity.
      - rewrite IH by assumption. rewrite E. destruct (existsb _ its); reflexivity. }
    rewrite Hgen by (apply Forall_forall; exact Hall). simpl.
    destruct (0 <? c) eqn:E0; simpl.
    + destruct (c <? 0.5) eqn:E1; simpl; f_equal; symmetry.
      * destruct (0.5 <=? c) eqn:E2; [|reflexivity].
        apply Double.leb_not_ltb in E2. congruence.
      * apply Double.threshold_reached; [|exact E1].
        eapply Double.leb_refl_r, Double.ltb_leb, E0.
    + change (0 <? 0.5) with true. simpl. f_equal. symmetry.
      destruct (0.5 <=? c) eqn:E2; [|reflexivity].
      apply Double.threshold_pos in E2. congruence.
Qed.

(** A vector whose coordinates are zeros has no positive dot product. *)
Lemma dot_zero_not_pos (d v : Vector3d) :
  (x d =? 0) = true -> (y d =? 0) = true -> (z d =? 0) = true ->
  (0 <? dot d v) = false.
Proof.
  intros Hx Hy Hz. apply DoubleZero.zero_or_nan_not_pos. unfold dot.
  repeat apply DoubleZero.add_zero_or_nan; apply DoubleZero.mul_zero_l; assumption.
Qed.

Lemma normalize_zero (d : Vector3d) :
  (x d =? 0) = true -> (y d =? 0) = true -> (z d =? 0) = true -> normalize d = d.
Proof.
  intros Hx Hy Hz. unfold normalize, squaredNorm.
  rewrite dot_zero_not_pos by assumption. reflexivity.
Qed.

(** With no positive cosine the loop keeps its start values. *)
Lemma getCloseViewObs_loop_no_update pos framepos its :
  forall min_it m,
    Forall (fun o => (m <? cos_angle pos framepos o) = false) its ->
    getCloseViewObs_loop pos framepos its min_it m = (min_it, m).
Proof.
  induction its as [|it rest IH]; intros min_it m Hall; simpl; [reflexivity|].
  inversion Hall as [|? ? Hit Hrest]; subst. rewrite Hit. apply IH, Hrest.
Qed.

Lemma getCloseViewObs_zero_direction
    (vp : VisualPoint) (framepos : Vector3d) (ftr : option Feature) (cur_px : float * float) :
  let d := sub framepos (pos_ vp) in
  (x d =? 0) = true -> (y d =? 0) = true -> (z d =? 0) = true ->
  getCloseViewObs vp framepos ftr cur_px
  = (false, match obs_ vp with [] => ftr | front :: _ => Some front end).
Proof.
  intros d Hx Hy Hz. unfold getCloseViewObs.
  destruct (obs_ vp) as [|b rest]; [reflexivity|].
  rewrite getCloseViewObs_loop_no_update; [reflexivity|].
  apply Forall_forall. intros o _. unfold cos_angle. fold d.
  rewrite normalize_zero by assumption. apply dot_zero_not_pos; assumption.
Qed.

(** X14. A query from the position of the point itself (finite
    coordinates) is never found, whatever the observations: the direction
    to the query is the zero vector, no cosine is positive, and the front
    observation is written (the reference is left alone on an empty
    list). *)
Theorem getCloseViewObs_query_at_point
    (vp : VisualPoint) (ftr : option Feature) (cur_px : float * float) :
  is_finite (x (pos_ vp)) = true ->
  is_finite (y (pos_ vp)) = true ->
  is_finite (z (pos_ vp)) = true ->
  getCloseViewObs vp (pos_ vp) ftr cur_px
  = (false, match obs_ vp with [] => ftr | front :: _ => Some front end).
Proof.
  intros Hx Hy Hz. apply getCloseViewObs_zero_direction; simpl;
    apply DoubleZero.sub_self; assumption.
Qed.

(** ** [findMinScoreFeature] over any scores *)

Lemma findMinScoreFeature_loop_any its :
  forall min_it m sel m',
    findMinScoreFeature_loop its min_it m = (sel, m') ->
    (m' = m /\ sel = min_it /\ Forall (fun o => (score_ o <? m) = false) its)
    \/ (exists pre post,
          its = pre ++ sel :: post
          /\ m' = score_ sel
          /\ (m' <? m) = true
          /\ Forall (fun o => (score_ o <=? m') = false) pre
          /\ Forall (fun o => (score_ o <? m') = false) its).
Proof.
  induction its as [|it rest IH]; intros min_it m sel m' Hrun; simpl in Hrun.
  - left. inversion Hrun; subst. auto.
  - destruct (score_ it <? m) eqn:Hlt.
    + apply IH in Hrun as [(-> & -> & Hrest) | (pre & post & -> & -> & Hcm & Hpre & Hall)].
      * right. exists [], rest. repeat split; auto.
        constructor; [apply Double.ltb_irrefl | exact Hrest].
      * right. exists (it :: pre), post. repeat split.
        -- eauto using Double.ltb_trans.
        -- constructor; [|exact Hpre].
           destruct (_ <=? _) eqn:E; [|reflexivity].
           apply Double.leb_not_ltb in E. congruence.
        -- constructor; [|exact Hall].
           apply Double.leb_not_ltb, Double.ltb_leb, Hcm.
    + apply IH in Hrun as [(-> & -> & Hrest) | (pre & post & -> & -> & Hcm & Hpre & Hall)].
      * left. repeat split; auto.
      * right. exists (it :: pre), post. repeat split; auto.
        -- constructor; [|exact Hpre].
           destruct (_ <=? _) eqn:E; [|reflexivity].
           rewrite (Double.leb_ltb_trans _ _ _ E Hcm) in Hlt. discriminate.
        -- constructor; [|exact Hall].
           destruct (_ <? score_ sel) eqn:E; [|reflexivity].
           rewrite (Double.ltb_trans _ _ _ E Hcm) in Hlt. discriminate.
Qed.

(** On a non-empty list the feature returned is an observation. *)
Lemma findMinScoreFeature_any_member (vp : VisualPoint) (framepos : Vector3d) :
  obs_ vp <> [] ->
  exists sel, findMinScoreFeature vp framepos = Some sel /\ sel ∈ obs_ vp.
Proof.
  intros Hne. unfold findMinScoreFeature.
  destruct (obs_ vp) as [|b rest] eqn:Hobs; [congruence|].
  destruct (findMinScoreFeature_loop (b :: rest) b FLT_MAX) as [sel m'] eqn:Hrun.
  apply findMinScoreFeature_loop_any in Hrun. simpl.
  destruct Hrun as [(-> & -> & _) | (pre & post & Hsplit & _)].
  - exists b. split; [reflexivity|left].
  - exists sel. split; [reflexivity|]. rewrite Hsplit. apply elem_of_app. right. left.
Qed.

(** X15. Whatever the scores, NaN and infinities included,
    [findMinScoreFeature] on a non-empty list returns one of the
    observations. If some score is below [FLT_MAX], it is the first
    observation that no score is strictly below, and its score is below
    [FLT_MAX]; if none is, it is the front of the list. *)
Theorem findMinScoreFeature_any_scores (vp : VisualPoint) (framepos : Vector3d) :
  obs_ vp <> [] ->
  (exists sel, findMinScoreFeature vp framepos = Some sel /\ sel ∈ obs_ vp)
  /\ ((exists o, o ∈ obs_ vp /\ (score_ o <? FLT_MAX) = true) ->
      exists pre sel post,
        obs_ vp = pre ++ sel :: post
        /\ findMinScoreFeature vp framepos = Some sel
        /\ (score_ sel <? FLT_MAX) = true
        /\ (forall o, o ∈ obs_ vp -> (score_ o <? score_ sel) = false)
        /\ (forall o, o ∈ pre -> (score_ o <=? score_ sel) = false))
  /\ ((forall o, o ∈ obs_ vp -> (score_ o <? FLT_MAX) = false) ->
      findMinScoreFeature vp framepos = head (obs_ vp)).
Proof.
  intros Hne. unfold findMinScoreFeature.
  destruct (obs_ vp) as [|b rest] eqn:Hobs; [congruence|].
  destruct (findMinScoreFeature_loop (b :: rest) b FLT_MAX) as [sel m'] eqn:Hrun.
  apply findMinScoreFeature_loop_any in Hrun. simpl.
  destruct Hrun as [(-> & -> & Hall) | (pre & post & Hsplit & -> & Hcm & Hpre & Hall)];
    rewrite Forall_forall in Hall.
  - split; [exists b; split; [reflexivity|left]|]. split; [|reflexivity].
    intros (o & Ho & E). rewrite Hall in E by exact Ho. discriminate.
  - rewrite Forall_forall in Hpre.
    assert (Hsel : sel ∈ b :: rest).
    { rewrite Hsplit. apply elem_of_app. right. constructor. }
    split; [exists sel; auto|]. split.
    + intros _. exists pre, sel, post. repeat split; auto.
    + intros Hno. rewrite Hno in Hcm by exact Hsel. discriminate.
Qed.

(** ** From construction to destruction *)

Lemma deleteFeatureRef_scan_perm (ftr : Feature) (its : list Feature) :
  (deleteFeatureRef_scan ftr its).1 ++ (deleteFeatureRef_scan ftr its).2 ≡ₚ its.
Proof.
  induction its as [|it rest IH]; simpl; [reflexivity|].
  destruct (decide (it = ftr)) as [->|Hne]; simpl.
  - rewrite <- Permutation_middle, app_nil_r. reflexivity.
  - destruct (deleteFeatureRef_scan ftr rest) as [kept released]. simpl in *.
    rewrite IH. reflexivity.
Qed.

Lemma filter_split_perm {A} (P : A -> Prop) `{!forall x, Decision (P x)} (l : list A) :
  filter P l ++ filter (fun x => ~ P x) l ≡ₚ l.
Proof.
  induction l as [|o l IH]; [reflexivity|].
  rewrite !filter_cons. destruct (decide (P o)) as [E|E].
  - rewrite decide_False by auto. simpl. rewrite IH. reflexivity.
  - rewrite decide_True by auto. rewrite <- Permutation_middle, IH. reflexivity.
Qed.

Lemma deleteNonRefPatchFeatures_perm (vp : VisualPoint) :
  obs_ (deleteNonRefPatchFeatures vp).1 ++ (deleteNonRefPatchFeatures vp).2 ≡ₚ obs_ vp.
Proof.
  unfold deleteNonRefPatchFeatures.
  pose proof (deleteNonRefPatchFeatures_scan_spec (ref_patch vp) (obs_ vp)) as [H1 H2].
  destruct (deleteNonRefPatchFeatures_scan (ref_patch vp) (obs_ vp)) as [kept released].
  simpl in *. subst. apply filter_split_perm.
Qed.

(** X8. No pointer is lost and none is invented: after
    [deleteFeatureRef], [deleteNonRefPatchFeatures] or the destructor, the
    entries left together with the pointers released are the old entries,
    each as often as before; [addFrameRef] adds its feature at the front. *)
Theorem observations_conserved (vp : VisualPoint) (f : Feature) :
  obs_ (deleteFeatureRef f vp).1 ++ (deleteFeatureRef f vp).2 ≡ₚ obs_ vp
  /\ obs_ (deleteNonRefPatchFeatures vp).1 ++ (deleteNonRefPatchFeatures vp).2 ≡ₚ obs_ vp
  /\ obs_ (VisualPoint_dtor vp).1 ++ (VisualPoint_dtor vp).2 = obs_ vp
  /\ obs_ (addFrameRef f vp) = f :: obs_ vp.
Proof.
  split; [|split; [|split]]; try reflexivity.
  - unfold deleteFeatureRef.
    destruct (decide (ref_patch vp = Some f)); simpl;
      pose proof (deleteFeatureRef_scan_perm f (obs_ vp)) as H;
      destruct (deleteFeatureRef_scan f (obs_ vp)); exact H.
  - apply deleteNonRefPatchFeatures_perm.
Qed.

(** X9. A point that is constructed, given distinct features one by one,
    culled with [deleteNonRefPatchFeatures] and then destroyed releases
    every one of these features exactly once. Destroyed without the cull,
    it releases them newest first. *)
Theorem VisualPoint_life_releases_each_once
    (pos : Vector3d) (ref0 : option Feature) (fs : list Feature) :
  NoDup fs ->
  let vp := foldl (fun v f => addFrameRef f v) (VisualPoint_ctor pos ref0) fs in
  let cull := deleteNonRefPatchFeatures vp in
  let fin := VisualPoint_dtor cull.1 in
  obs_ vp = rev fs
  /\ (VisualPoint_dtor vp).2 = rev fs
  /\ cull.2 ++ fin.2 ≡ₚ fs
  /\ NoDup (cull.2 ++ fin.2)
  /\ obs_ fin.1 = [] /\ ref_patch fin.1 = None.
Proof.
  intros Hnd vp cull fin.
  assert (Hobs : obs_ vp = rev fs).
  { subst vp. rewrite addFrameRef_newest_first. simpl. apply app_nil_r. }
  assert (Hperm : cull.2 ++ fin.2 ≡ₚ fs).
  { subst fin cull. simpl. rewrite Permutation_app_comm.
    rewrite deleteNonRefPatchFeatures_perm, Hobs. symmetry. apply Permutation_rev. }
  split; [exact Hobs|]. split; [exact Hobs|]. split; [exact Hperm|].
  split; [rewrite Hperm; exact Hnd|]. split; reflexivity.
Qed.

(** ** Selection after a removal *)

(** On a non-empty list the feature written is an observation. *)
Lemma getCloseViewObs_writes_obs
    (vp : VisualPoint) (framepos : Vector3d) (ftr : option Feature) (cur_px : float * float) :
  obs_ vp <> [] ->
  exists f, (getCloseViewObs vp framepos ftr cur_px).2 = Some f /\ f ∈ obs_ vp.
Proof.
  intros Hne. unfold getCloseViewObs.
  destruct (obs_ vp) as [|b rest] eqn:Hobs; [congruence|].
  destruct (getCloseViewObs_loop (pos_ vp) framepos (b :: rest) b 0) as [sel m'] eqn:Hrun.
  apply getCloseViewObs_loop_spec in Hrun.
  destruct Hrun as [(-> & -> & _) | (pre & post & Hsplit & _)].
  - exists b. split; [destruct (_ <? 0.5); reflexivity | left].
  - exists sel. split; [destruct (_ <? 0.5); reflexivity|].
    rewrite Hsplit. apply elem_of_app. right. left.
Qed.

(** X16. After [deleteFeatureRef] on a list without duplicates neither
    selection hands out the released feature: [findMinScoreFeature] never
    returns it, and [getCloseViewObs] has it in [ftr] on return only if the
    list is then empty and the caller passed it in. *)
Theorem deleteFeatureRef_then_select
    (vp : VisualPoint) (f : Feature) (framepos : Vector3d) (ftr : option Feature)
    (cur_px : float * float) :
  NoDup (obs_ vp) ->
  let vp' := (deleteFeatureRef f vp).1 in
  findMinScoreFeature vp' framepos <> Some f
  /\ ((getCloseViewObs vp' framepos ftr cur_px).2 = Some f ->
      obs_ vp' = [] /\ ftr = Some f).
Proof.
  intros Hnd vp'. subst vp'.
  destruct (deleteFeatureRef_obs f vp) as [Ho _].
  pose proof (deleteFeatureRef_scan_gone f (obs_ vp) Hnd) as Hgone.
  rewrite <- Ho in Hgone. clear Ho.
  set (vp' := (deleteFeatureRef f vp).1) in *.
  split.
  - destruct (decide (obs_ vp' = [])) as [E|E].
    + unfold findMinScoreFeature. rewrite E. discriminate.
    + destruct (findMinScoreFeature_any_member vp' framepos E) as (sel & Hs & Hin).
      rewrite Hs. intros [= ->]. contradiction.
  - intros Hw. destruct (decide (obs_ vp' = [])) as [E|E].
    + split; [exact E|]. unfold getCloseViewObs in Hw. rewrite E in Hw. exact Hw.
    + destruct (getCloseViewObs_writes_obs vp' framepos ftr cur_px E) as (sel & Hs & Hin).
      rewrite Hs in Hw. inversion Hw; subst. contradiction.
Qed.

End VisualPointMore.

(* ===================================================================== *)
(** * More facts about the image pyramid *)
(* ===================================================================== *)

Section PyramidMore.
Import frame_utils.
#[local] Open Scope Z_scope.

(** The loop writes index [i] from index [i - 1] alone: what [pyr] held
    from [i] on does not matter. *)
Lemma createImgPyramid_loop_overwrites (todo : nat) :
  forall (i : nat) (pyrA pyrB : ImgPyr) (mem : PixelStore),
    (1 <= i)%nat -> length pyrA = length pyrB -> (i + todo = length pyrA)%nat ->
    take i pyrA = take i pyrB ->
    createImgPyramid_loop todo i pyrA mem = createImgPyramid_loop todo i pyrB mem.
Proof.
  induction todo as [|todo IH]; intros i pyrA pyrB mem Hi Hlen Hsum Htake; simpl.
  - rewrite Nat.add_0_r in Hsum.
    rewrite <- (take_ge pyrA i), <- (take_ge pyrB i) by lia. rewrite Htake. reflexivity.
  - assert (Hprev : pyrA !! (i - 1)%nat = pyrB !! (i - 1)%nat).
    { rewrite <- (lookup_take_lt pyrA i (i - 1)), <- (lookup_take_lt pyrB i (i - 1)) by lia.
      rewrite Htake. reflexivity. }
    rewrite <- Hprev. destruct (pyrA !! (i - 1)%nat) as [prev|]; [|reflexivity]. simpl.
    destruct (lookup_lt_is_Some_2 pyrA i) as [oa Hoa]; [lia|].
    destruct (lookup_lt_is_Some_2 pyrB i) as [ob Hob]; [lia|].
    rewrite Hoa, Hob. simpl.
    destruct (Mat_create _ _ _ mem) as [level mem1].
    apply IH.
    + lia.
    + rewrite !length_insert. exact Hlen.
    + rewrite length_insert. lia.
    + rewrite !(take_S_r _ _ level) by (apply list_lookup_insert_eq; lia).
      rewrite !take_insert_ge by lia. rewrite Htake. reflexivity.
Qed.

(** X17. What the vector [pyr] held before the call does not matter to
    [createImgPyramid]: every entry is resized away or overwritten. *)
Theorem createImgPyramid_ignores_old_pyr
    (img : Mat) (n : Z) (pyr1 pyr2 : ImgPyr) (mem : PixelStore) :
  createImgPyramid img n pyr1 mem = createImgPyramid img n pyr2 mem.
Proof.
  unfold createImgPyramid. destruct (n <=? 0) eqn:E; [reflexivity|].
  apply Z.leb_gt in E.
  apply createImgPyramid_loop_overwrites.
  - lia.
  - rewrite !length_insert, !length_resize. reflexivity.
  - rewrite length_insert, length_resize. lia.
  - destruct (resize (Z.to_nat n) Mat_default pyr1) as [|a la] eqn:Ea.
    { apply (f_equal length) in Ea. rewrite length_resize in Ea. simpl in Ea. lia. }
    destruct (resize (Z.to_nat n) Mat_default pyr2) as [|b lb] eqn:Eb.
    { apply (f_equal length) in Eb. rewrite length_resize in Eb. simpl in Eb. lia. }
    reflexivity.
Qed.

(** What the loop makes of the levels from [i] on: each is a new
    [CV_8U] header, with a buffer exactly when it has pixels, and that
    buffer is a new one, later levels having later buffers. *)
Lemma createImgPyramid_loop_fresh (todo : nat) :
  forall (i : nat) (pyr : ImgPyr) (mem : PixelStore) pyr' mem',
    createImgPyramid_loop todo i pyr mem = Some (pyr', mem') ->
    (length mem <= length mem')%nat
    /\ (forall j lvl, (i <= j < i + todo)%nat -> pyr' !! j = Some lvl ->
          type_ lvl = CV_8U
          /\ (data lvl = None <-> ~ 0 < rows lvl * cols lvl)
          /\ (forall a, data lvl = Some a -> (length mem <= a < length mem')%nat))
    /\ (forall j j' lvl lvl' a a', (i <= j < j')%nat -> (j' < i + todo)%nat ->
          pyr' !! j = Some lvl -> pyr' !! j' = Some lvl' ->
          data lvl = Some a -> data lvl' = Some a' -> (a < a')%nat).
Proof.
  induction todo as [|todo IH]; intros i pyr mem pyr' mem' Hrun; simpl in Hrun.
  - inversion Hrun; subst. split; [lia|]. split; intros; lia.
  - destruct (pyr !! (i - 1)%nat) as [prev|]; [|discriminate].
    destruct (pyr !! i) as [old|] eqn:Hold; [|discriminate]. simpl in Hrun.
    destruct (Mat_create _ _ _ mem) as [level mem1] eqn:Hcreate.
    pose proof (createImgPyramid_loop_prefix _ _ _ _ _ _ Hrun i) as Hi.
    rewrite list_lookup_insert_eq in Hi by (apply lookup_lt_Some in Hold; exact Hold).
    specialize (Hi ltac:(lia)).
    apply IH in Hrun as (Hlen & Hlv & Hord).
    assert (Hmem2 : (length (vk.halfSample prev level mem1) = length mem1)%nat).
    { unfold vk.halfSample. destruct (data level); [apply length_insert|reflexivity]. }
    rewrite Hmem2 in *.
    assert (Hlevel : type_ level = CV_8U
              /\ (data level = None <-> ~ 0 < rows level * cols level)
              /\ (forall a, data level = Some a -> a = length mem /\ length mem1 = S (length mem))
              /\ (length mem <= length mem1)%nat).
    { unfold Mat_create in Hcreate.
      destruct (0 <? _) eqn:Hsz; inversion Hcreate; subst; simpl.
      - apply Z.ltb_lt in Hsz. split; [reflexivity|]. split; [split; [discriminate|tauto]|].
        split; [|rewrite length_app; simpl; lia].
        intros a [= <-]. rewrite length_app. simpl. lia.
      - apply Z.ltb_ge in Hsz. split; [reflexivity|]. split; [split; [lia|reflexivity]|].
        split; [discriminate|lia]. }
    destruct Hlevel as (Hty & Hnone & Haddr & Hgrow).
    split; [lia|]. split.
    + intros j lvl Hj Hl. destruct (decide (j = i)) as [->|Hne].
      * rewrite Hi in Hl. inversion Hl; subst lvl.
        split; [exact Hty|]. split; [exact Hnone|].
        intros a Ha. destruct (Haddr a Ha). lia.
      * destruct (Hlv j lvl) as (H1 & H2 & H3); [lia|exact Hl|].
        split; [exact H1|]. split; [exact H2|]. intros a Ha. specialize (H3 a Ha). lia.
    + intros j j' lvl lvl' a a' Hj Hj' Hl Hl' Ha Ha'.
      destruct (decide (j = i)) as [->|Hne].
      * rewrite Hi in Hl. inversion Hl; subst lvl. destruct (Haddr a Ha) as [-> Hs].
        destruct (Hlv j' lvl') as (_ & _ & H3); [lia|exact Hl'|].
        specialize (H3 a' Ha'). lia.
      * apply (Hord j j' lvl lvl'); auto; lia.
Qed.

(** The loop from index 1 on a valid input: it returns, and what it built. *)
Lemma createImgPyramid_runs (img : Mat) (n : Z) (pyr : ImgPyr) (mem : PixelStore) :
  in_store mem img -> 1 <= n ->
  exists pyr' mem',
    createImgPyramid img n pyr mem = Some (pyr', mem')
    /\ length pyr' = Z.to_nat n
    /\ pyr' !! 0%nat = Some img
    /\ (exists ext, mem' = mem ++ ext)
    /\ built mem' pyr' (Z.to_nat n)
    /\ (forall j lvl, (1 <= j)%nat -> pyr' !! j = Some lvl ->
          type_ lvl = CV_8U
          /\ (data lvl = None <-> ~ 0 < rows lvl * cols lvl)
          /\ (forall a, data lvl = Some a -> (length mem <= a < length mem')%nat))
    /\ (forall j j' lvl lvl' a a', (1 <= j < j')%nat ->
          pyr' !! j = Some lvl -> pyr' !! j' = Some lvl' ->
          data lvl = Some a -> data lvl' = Some a' -> (a < a')%nat).
Proof.
  intros Himg Hn. unfold createImgPyramid.
  destruct (n <=? 0) eqn:E; [apply Z.leb_le in E; lia|].
  set (pyr1 := <[0%nat := img]> (resize (Z.to_nat n) Mat_default pyr)).
  assert (Hlen : length pyr1 = Z.to_nat n)
    by (unfold pyr1; rewrite length_insert, length_resize; reflexivity).
  assert (H0 : pyr1 !! 0%nat = Some img).
  { unfold pyr1. apply list_lookup_insert_eq. rewrite length_resize. lia. }
  destruct (createImgPyramid_loop_spec (Z.to_nat n - 1) 1 pyr1 mem)
    as (pyr' & mem' & Hrun & Hlen' & Hext & Hpre & Hbuilt).
  - lia.
  - lia.
  - split.
    + intros j lvl Hj Hl. replace j with 0%nat in Hl by lia. rewrite H0 in Hl.
      inversion Hl; subst. exact Himg.
    + intros j p l Hj. lia.
  - destruct (createImgPyramid_loop_fresh _ _ _ _ _ _ Hrun) as (_ & Hlv & Hord).
    exists pyr', mem'. split; [exact Hrun|]. split; [lia|]. split; [rewrite Hpre by lia; exact H0|].
    split; [exact Hext|]. split; [replace (Z.to_nat n) with (1 + (Z.to_nat n - 1))%nat by lia; exact Hbuilt|].
    split.
    + intros j lvl Hj Hl. apply (Hlv j); [|exact Hl]. apply lookup_lt_Some in Hl. lia.
    + intros j j' lvl lvl' a a' Hj Hl Hl'. apply (Hord j j' lvl lvl'); auto.
      apply lookup_lt_Some in Hl'. lia.
Qed.

(** X18. For an input whose buffer is in the store and [n >= 1], level
    [k] of the pyramid has [rows / 2^k] rows and [cols / 2^k] columns of
    the input, rounded down; every level from 1 on is of type [CV_8U] and
    has no buffer exactly when it has no rows or no columns. *)
Theorem createImgPyramid_level_sizes
    (img : Mat) (n : Z) (pyr : ImgPyr) (mem : PixelStore) :
  in_store mem img -> 1 <= n ->
  exists pyr' mem',
    createImgPyramid img n pyr mem = Some (pyr', mem')
    /\ forall k : nat, (Z.of_nat k < n) ->
         exists lvl, pyr' !! k = Some lvl
           /\ rows lvl = rows img / 2 ^ Z.of_nat k
           /\ cols lvl = cols img / 2 ^ Z.of_nat k
           /\ ((1 <= k)%nat -> type_ lvl = CV_8U)
           /\ ((1 <= k)%nat -> (data lvl = None <-> rows lvl = 0 \/ cols lvl = 0)).
Proof.
  intros Himg Hn.
  destruct (createImgPyramid_runs img n pyr mem Himg Hn)
    as (pyr' & mem' & Hrun & Hlen & H0 & _ & [Hstore Hhalf] & Hlv & _).
  exists pyr', mem'. split; [exact Hrun|].
  assert (Hsize : forall k : nat, Z.of_nat k < n ->
            exists lvl, pyr' !! k = Some lvl
              /\ rows lvl = rows img / 2 ^ Z.of_nat k
              /\ cols lvl = cols img / 2 ^ Z.of_nat k).
  { induction k as [|k IH]; intros Hk.
    - exists img. rewrite !Z.div_1_r. auto.
    - destruct IH as (prev & Hp & Hr & Hc); [lia|].
      destruct (lookup_lt_is_Some_2 pyr' (S k)) as [lvl Hl]; [lia|].
      destruct (Hhalf k prev lvl) as (Hr' & Hc' & _); [lia|exact Hp|exact Hl|].
      exists lvl. split; [exact Hl|].
      rewrite Hr', Hc', Hr, Hc, Nat2Z.inj_succ, Z.pow_succ_r by lia.
      rewrite !Z.div_div by lia. rewrite (Z.mul_comm 2). auto. }
  intros k Hk. destruct (Hsize k Hk) as (lvl & Hl & Hr & Hc).
  exists lvl. split; [exact Hl|]. split; [exact Hr|]. split; [exact Hc|].
  split; intros Hk1; destruct (Hlv k lvl Hk1 Hl) as (Hty & Hnone & _); [exact Hty|].
  assert (Hin : in_store mem' lvl). { apply (Hstore k); [lia|exact Hl]. }
  destruct Hin as (Hr0 & Hc0 & _). rewrite Hnone. nia.
Qed.

(** X19. [createImgPyramid] leaves every buffer that was in the store as
    it was, and gives each level from 1 on that has pixels a buffer that
    was not in the store before and that no other level has: no such
    level shares its buffer with the input or with another level. *)
Theorem createImgPyramid_allocates_fresh_buffers
    (img : Mat) (n : Z) (pyr : ImgPyr) (mem : PixelStore) :
  in_store mem img -> 1 <= n ->
  exists pyr' mem',
    createImgPyramid img n pyr mem = Some (pyr', mem')
    /\ (forall a buf, mem !! a = Some buf -> mem' !! a = Some buf)
    /\ (forall j lvl a, (1 <= j)%nat -> pyr' !! j = Some lvl -> data lvl = Some a ->
          mem !! a = None /\ is_Some (mem' !! a) /\ data lvl <> data img)
    /\ (forall j j' lvl lvl', j <> j' ->
          pyr' !! j = Some lvl -> pyr' !! j' = Some lvl' ->
          is_Some (data lvl) -> data lvl <> data lvl').
Proof.
  intros Himg Hn.
  destruct (createImgPyramid_runs img n pyr mem Himg Hn)
    as (pyr' & mem' & Hrun & Hlen & H0 & [ext Hext] & _ & Hlv & Hord).
  exists pyr', mem'. split; [exact Hrun|].
  assert (Hnew : forall j lvl a, (1 <= j)%nat -> pyr' !! j = Some lvl -> data lvl = Some a ->
             (length mem <= a < length mem')%nat).
  { intros j lvl a Hj Hl Ha. destruct (Hlv j lvl Hj Hl) as (_ & _ & H). auto. }
  split; [|split].
  - intros a buf Ha. rewrite Hext. apply lookup_app_l_Some. exact Ha.
  - intros j lvl a Hj Hl Ha. specialize (Hnew j lvl a Hj Hl Ha). split; [|split].
    + apply lookup_ge_None. lia.
    + apply lookup_lt_is_Some. lia.
    + rewrite Ha. intros E. destruct Himg as (_ & _ & Hi). symmetry in E. apply Hi in E. lia.
  - assert (Hlt : forall j j' lvl lvl', (j < j')%nat ->
              pyr' !! j = Some lvl -> pyr' !! j' = Some lvl' ->
              forall a a', data lvl = Some a -> data lvl' = Some a' -> a <> a').
    { intros j j' lvl lvl' Hjj Hl Hl' a a' Ha Ha'.
      destruct (decide (j = 0%nat)) as [->|Hj0].
      - rewrite H0 in Hl. inversion Hl; subst lvl.
        destruct Himg as (_ & _ & Hi). specialize (Hi a Ha).
        specialize (Hnew j' lvl' a' ltac:(lia) Hl' Ha'). lia.
      - specialize (Hord j j' lvl lvl' a a' ltac:(lia) Hl Hl' Ha Ha'). lia. }
    intros j j' lvl lvl' Hne Hl Hl' [a Ha] E. rewrite Ha in E. symmetry in E.
    destruct (Nat.lt_total j j') as [H|[H|H]]; [|contradiction|].
    + exact (Hlt j j' lvl lvl' H Hl Hl' a a Ha E eq_refl).
    + exact (Hlt j' j lvl' lvl H Hl' Hl a a E Ha eq_refl).
Qed.

(** X20. A level from 1 on of a pyramid can be made a [Frame] exactly when
    it has pixels: the constructor throws [EmptyImage] for a level without
    rows or columns and returns a frame holding the level otherwise,
    never [BadPixelFormat]. *)
Theorem createImgPyramid_level_as_frame
    (img : Mat) (n : Z) (pyr : ImgPyr) (mem : PixelStore)
    (cam : AbstractCamera) (p : Process) :
  in_store mem img -> 1 <= n ->
  exists pyr' mem',
    createImgPyramid img n pyr mem = Some (pyr', mem')
    /\ forall j lvl, (1 <= j)%nat -> pyr' !! j = Some lvl ->
         (Frame_ctor cam lvl p).2
         = if (rows lvl * cols lvl =? 0) then Thrown EmptyImage
           else Returned (mkFrame (frame_counter_ p) cam lvl).
Proof.
  intros Himg Hn.
  destruct (createImgPyramid_runs img n pyr mem Himg Hn)
    as (pyr' & mem' & Hrun & Hlen & H0 & _ & [Hstore _] & Hlv & _).
  exists pyr', mem'. split; [exact Hrun|].
  intros j lvl Hj Hl. destruct (Hlv j lvl Hj Hl) as (Hty & Hnone & _).
  assert (Hin : in_store mem' lvl).
  { apply (Hstore j); [apply lookup_lt_Some in Hl; lia|exact Hl]. }
  destruct Hin as (Hr0 & Hc0 & _).
  pose proof (initFrame_cases (mkFrame (frame_counter_ p) cam Mat_default) lvl (cerr p)) as H.
  unfold Frame_ctor. simpl in H.
  destruct (Z.eqb_spec (rows lvl * cols lvl) 0) as [Hz|Hnz].
  - assert (He : empty lvl = true).
    { unfold empty, total. rewrite Hz. simpl. apply orb_true_r. }
    destruct H as [(_ & ->) | [(He' & _) | (He' & _)]]; [reflexivity|congruence|congruence].
  - assert (He : empty lvl = false).
    { unfold empty, total. apply orb_false_iff. split.
      - apply bool_decide_eq_false. rewrite Hnone. nia.
      - apply Z.eqb_neq. exact Hnz. }
    destruct H as [(He' & _) | [(_ & Ht & _) | (_ & _ & ->)]]; [congruence| |reflexivity].
    exfalso. apply Ht. rewrite Hty. reflexivity.
Qed.

End PyramidMore.

(* ===================================================================== *)
(** * More facts about [Frame] *)
(* ===================================================================== *)

Section FrameMore.
#[local] Open Scope Z_scope.

(** What one construction does to the process, whatever its outcome. *)
Lemma Frame_ctor_process (cam : AbstractCamera) (img : Mat) (p : Process) :
  frame_counter_ (Frame_ctor cam img p).1 = int_wrap (frame_counter_ p + 1)
  /\ cerr (Frame_ctor cam img p).1
     = cerr p ++ (if warns (cam, img) then [size_warning] else []).
Proof.
  unfold Frame_ctor, initFrame, warns. simpl.
  destruct (empty img); simpl; [rewrite app_nil_r; auto|].
  destruct (negb (cols img =? width cam) || negb (rows img =? height cam));
    destruct (negb (type_ img =? CV_8UC1)); simpl; rewrite ?app_nil_r; auto.
Qed.

(** The outcome of a construction depends on the process through the
    counter alone. *)
Lemma Frame_ctor_outcome (cam : AbstractCamera) (img : Mat) (p q : Process) :
  frame_counter_ p = frame_counter_ q -> (Frame_ctor cam img p).2 = (Frame_ctor cam img q).2.
Proof.
  intros E. unfold Frame_ctor, initFrame. rewrite E. simpl.
  destruct (empty img); [reflexivity|].
  destruct (negb (type_ img =? CV_8UC1)); reflexivity.
Qed.

(** Every attempt leaves one outcome. *)
Lemma construct_all_length (attempts : list (AbstractCamera * Mat)) (p : Process) :
  length (construct_all attempts p).2 = length attempts.
Proof.
  revert p. induction attempts as [|[cam img] rest IH]; intros p; simpl; [reflexivity|].
  destruct (Frame_ctor cam img p) as [p1 r]. specialize (IH p1).
  destruct (construct_all rest p1) as [p2 rs]. simpl in *. lia.
Qed.

(** X21. Construction attempts give one outcome each, and [std::cerr]
    gains the size warning once for every attempt whose image is not empty
    and has another size than the camera model, whether or not that attempt
    then throws for the pixel format, and nothing else. *)
Theorem construct_all_log (attempts : list (AbstractCamera * Mat)) (p : Process) :
  length (construct_all attempts p).2 = length attempts
  /\ cerr (construct_all attempts p).1
     = cerr p ++ replicate (length (filter (fun a => warns a = true) attempts)) size_warning.
Proof.
  split; [apply construct_all_length|].
  revert p. induction attempts as [|[cam img] rest IH]; intros p; simpl.
  - rewrite app_nil_r. auto.
  - destruct (Frame_ctor_process cam img p) as [_ Herr].
    destruct (Frame_ctor cam img p) as [p1 r]. simpl in Herr.
    specialize (IH p1) as Hlog.
    destruct (construct_all rest p1) as [p2 rs]. simpl in *.
    rewrite Hlog, Herr, filter_cons.
    destruct (warns (cam, img)) eqn:W.
    + rewrite decide_True by reflexivity. simpl. rewrite <- app_assoc. reflexivity.
    + rewrite decide_False by discriminate. rewrite app_nil_r. reflexivity.
Qed.

Lemma increasing_NoDup (ids : list Z) : increasing ids -> NoDup ids.
Proof.
  intros Hinc. apply NoDup_alt. intros i j a Hi Hj.
  destruct (Nat.lt_total i j) as [H|[H|H]]; [|exact H|].
  - specialize (Hinc i j a a H Hi Hj). lia.
  - specialize (Hinc j i a a H Hj Hi). lia.
Qed.

(** X22. As long as the counter does not overflow, after the attempts the
    counter has advanced by their number; the outcome of attempt [k] is
    that of a single construction with the counter at its first value plus
    [k]; and the ids of the constructed frames are pairwise different and
    lie between the first value and the first value plus the number of
    attempts. *)
Theorem construct_all_outcomes (attempts : list (AbstractCamera * Mat)) (p : Process) :
  INT_MIN <= frame_counter_ p ->
  frame_counter_ p + Z.of_nat (length attempts) <= INT_MAX ->
  frame_counter_ (construct_all attempts p).1 = frame_counter_ p + Z.of_nat (length attempts)
  /\ (forall (k : nat) cam img, attempts !! k = Some (cam, img) ->
        (construct_all attempts p).2 !! k
        = Some (Frame_ctor cam img (mkProcess (frame_counter_ p + Z.of_nat k) [])).2)
  /\ NoDup (constructed_ids (construct_all attempts p).2)
  /\ Forall (fun a => frame_counter_ p <= a < frame_counter_ p + Z.of_nat (length attempts))
       (constructed_ids (construct_all attempts p).2).
Proof.
  intros Hlo Hhi.
  destruct (construct_all_spec attempts p Hlo Hhi) as (Hid & _ & Hinc & _).
  assert (Hmain : frame_counter_ (construct_all attempts p).1
                  = frame_counter_ p + Z.of_nat (length attempts)
            /\ forall (k : nat) cam img, attempts !! k = Some (cam, img) ->
                 (construct_all attempts p).2 !! k
                 = Some (Frame_ctor cam img (mkProcess (frame_counter_ p + Z.of_nat k) [])).2).
  { clear Hid Hinc. revert p Hlo Hhi.
    induction attempts as [|[cam img] rest IH]; intros p Hlo Hhi; simpl in *.
    - split; [lia|]. intros k c i E. rewrite lookup_nil in E. discriminate.
    - destruct (Frame_ctor_step cam img p) as [Hc _]; [lia|lia|].
      pose proof (Frame_ctor_outcome cam img p (mkProcess (frame_counter_ p + 0) [])) as Hout.
      destruct (Frame_ctor cam img p) as [p1 r]. simpl in Hc, Hout.
      destruct (IH p1) as [Hcnt Hk]; [lia|lia|].
      destruct (construct_all rest p1) as [p2 rs]. simpl in *.
      split; [lia|]. intros [|k] c i E; simpl in *.
      + inversion E; subst. rewrite Hout by lia. reflexivity.
      + rewrite (Hk k c i E), Hc.
        replace (frame_counter_ p + Z.of_nat (S k))
          with (frame_counter_ p + 1 + Z.of_nat k) by lia.
        reflexivity. }
  destruct Hmain as [Hcnt Hk].
  split; [exact Hcnt|]. split; [exact Hk|]. split; [apply increasing_NoDup, Hinc|].
  apply Forall_forall. intros a Ha. unfold constructed_ids in Ha.
  apply list_elem_of_omap in Ha as (r & Hr & Hsome).
  destruct r as [f|what]; [|discriminate]. inversion Hsome; subst a.
  apply list_elem_of_lookup in Hr as [k Hr].
  rewrite (Hid k f Hr).
  assert (Hklt : (k < length attempts)%nat).
  { apply lookup_lt_Some in Hr. pose proof (construct_all_length attempts p) as Hl. lia. }
  lia.
Qed.

End FrameMore.

(* ===================================================================== *)
(** * The further statements on concrete inputs *)
(* ===================================================================== *)

Section MoreRuns.
Import Scenario Inputs.
#[local] Open Scope float_scope.

(** X1 on the observations 0, 1, 2 and the unobserved feature 3. *)
Lemma deleteFeatureRef_absent_is_noop_witness :
  let vp := point origin [0; 1; 2]%nat (Some 1%nat) in
  (3%nat ∉ obs_ vp)
  /\ obs_ (deleteFeatureRef 3%nat vp).1 = obs_ vp
  /\ (deleteFeatureRef 3%nat vp).2 = [].
Proof.
  intros vp.
  assert (H : 3%nat ∉ obs_ vp) by compute_done.
  destruct (deleteFeatureRef_absent_is_noop (FA := features) 3%nat vp H) as (H1 & H2 & _).
  exact (conj H (conj H1 H2)).
Defined.

(** X2 on the list 0, 1, 2, 1 and the feature 1. *)
Lemma deleteFeatureRef_erases_first_occurrence_witness :
  let vp := point origin [0; 1; 2; 1]%nat (Some 1%nat) in
  obs_ vp = [0%nat] ++ 1%nat :: [2; 1]%nat
  /\ (1%nat ∉ [0%nat])
  /\ obs_ (deleteFeatureRef 1%nat vp).1 = [0%nat] ++ [2; 1]%nat
  /\ (deleteFeatureRef 1%nat vp).2 = [1%nat].
Proof.
  intros vp.
  assert (H1 : obs_ vp = [0%nat] ++ 1%nat :: [2; 1]%nat) by reflexivity.
  assert (H2 : 1%nat ∉ [0%nat]) by compute_done.
  destruct (deleteFeatureRef_erases_first_occurrence (FA := features) 1%nat vp _ _ H1 H2) as (Ha & Hb & _).
  exact (conj H1 (conj H2 (conj Ha Hb))).
Defined.

(** X3 on the observations 0, 1, 2 and the feature 1. *)
Lemma deleteFeatureRef_leaves_no_dangling_witness :
  let vp := point origin [0; 1; 2]%nat (Some 1%nat) in
  NoDup (obs_ vp)
  /\ NoDup (obs_ (deleteFeatureRef 1%nat vp).1)
  /\ ref_patch (deleteFeatureRef 1%nat vp).1 <> Some 1%nat.
Proof.
  intros vp.
  assert (H : NoDup (obs_ vp)) by compute_done.
  destruct (deleteFeatureRef_leaves_no_dangling (FA := features) 1%nat vp H) as (Ha & _ & _ & Hb).
  exact (conj H (conj Ha Hb)).
Defined.

(** X5 on the observations 0, 1, 2 with reference patch 1. *)
Lemma ref_patch_consistent_preserved_witness :
  let vp := point origin [0; 1; 2]%nat (Some 1%nat) in
  ref_patch_consistent vp
  /\ ref_patch_consistent (addFrameRef 3%nat vp)
  /\ ref_patch_consistent (deleteFeatureRef 1%nat vp).1
  /\ ref_patch_consistent (deleteNonRefPatchFeatures vp).1.
Proof.
  intros vp.
  assert (H : ref_patch_consistent vp).
  { split.
    - split; [discriminate | reflexivity].
    - intros r [= <-]. compute_done. }
  destruct (ref_patch_consistent_preserved vp 3%nat H) as (Ha & _ & Hc).
  destruct (ref_patch_consistent_preserved vp 1%nat H) as (_ & Hb & _).
  exact (conj H (conj Ha (conj Hb Hc))).
Defined.

(** X7 on scenario S4 of the spec. *)
Lemma deleteNonRefPatchFeatures_keeps_one_witness :
  let vp := point origin [0; 1; 2]%nat (Some 1%nat) in
  NoDup (obs_ vp)
  /\ NoDup (deleteNonRefPatchFeatures vp).2
  /\ obs_ (deleteNonRefPatchFeatures vp).1 = [1%nat].
Proof.
  intros vp.
  assert (H : NoDup (obs_ vp)) by compute_done.
  destruct (deleteNonRefPatchFeatures_keeps_one vp H) as (Ha & _ & Hb & _).
  assert (Hin : 1%nat ∈ obs_ vp) by compute_done.
  exact (conj H (conj Ha (Hb 1%nat eq_refl Hin))).
Defined.

(** X9 on the features 0, 1, 2. *)
Lemma VisualPoint_life_releases_each_once_witness :
  let fs := [0; 1; 2]%nat in
  let vp := foldl (fun v f => addFrameRef f v) (VisualPoint_ctor origin None) fs in
  NoDup fs
  /\ (VisualPoint_dtor vp).2 = rev fs
  /\ NoDup ((deleteNonRefPatchFeatures vp).2
            ++ (VisualPoint_dtor (deleteNonRefPatchFeatures vp).1).2).
Proof.
  intros fs vp.
  assert (H : NoDup fs) by compute_done.
  destruct (VisualPoint_life_releases_each_once (FA := features) origin None fs H) as (_ & Ha & _ & Hb & _).
  exact (conj H (conj Ha Hb)).
Defined.

(** X10 on the observations 0, 1, 2 with reference patch 1, seen from
    (0, 2, 0). *)
Lemma deleteNonRefPatchFeatures_then_select_witness :
  let vp := point origin [0; 1; 2]%nat (Some 1%nat) in
  ref_patch vp = Some 1%nat
  /\ (1%nat ∈ obs_ vp)
  /\ findMinScoreFeature (deleteNonRefPatchFeatures vp).1 (V3 0 2 0) = Some 1%nat
  /\ getCloseViewObs (deleteNonRefPatchFeatures vp).1 (V3 0 2 0) None px0
     = (0.5 <=? cos_angle (pos_ vp) (V3 0 2 0) 1%nat, Some 1%nat).
Proof.
  intros vp.
  assert (H1 : ref_patch vp = Some 1%nat) by reflexivity.
  assert (H2 : 1%nat ∈ obs_ vp) by compute_done.
  exact (conj H1 (conj H2
    (deleteNonRefPatchFeatures_then_select vp 1%nat (V3 0 2 0) None px0 H1 H2))).
Defined.

(** X11 on scenario S1 of the spec. *)
Lemma getCloseViewObs_found_within_threshold_witness :
  let vp := point origin [2; 1; 0]%nat None in
  let q := V3 0x1.ccccccccccccdp-1 0x1.999999999999ap-4 0 in
  getCloseViewObs vp q None px0 = (true, Some 0%nat)
  /\ exists f, Some 0%nat = Some f /\ f ∈ obs_ vp
       /\ (0.5 <=? cos_angle (pos_ vp) q f) = true
       /\ (0 <? cos_angle (pos_ vp) q f) = true.
Proof.
  intros vp q.
  assert (H : getCloseViewObs vp q None px0 = (true, Some 0%nat)) by reflexivity.
  exact (conj H (getCloseViewObs_found_within_threshold vp q None px0 _ H)).
Defined.

(** X12 on scenario S1 and the same observations in the opposite order. *)
Lemma getCloseViewObs_found_order_independent_witness :
  let vp1 := point origin [2; 1; 0]%nat None in
  let vp2 := point origin [0; 1; 2]%nat (Some 1%nat) in
  let q := V3 0x1.ccccccccccccdp-1 0x1.999999999999ap-4 0 in
  pos_ vp1 = pos_ vp2
  /\ (obs_ vp1 ≡ₚ obs_ vp2)
  /\ (getCloseViewObs vp1 q None px0).1 = (getCloseViewObs vp2 q (Some 7%nat) px0).1.
Proof.
  intros vp1 vp2 q.
  assert (H1 : pos_ vp1 = pos_ vp2) by reflexivity.
  assert (H2 : obs_ vp1 ≡ₚ obs_ vp2) by (symmetry; exact (Permutation_rev [0; 1; 2]%nat)).
  exact (conj H1 (conj H2
    (getCloseViewObs_found_order_independent vp1 vp2 q None (Some 7%nat) px0 px0 H1 H2))).
Defined.

(** X14 on a point at (1, 2, 3) with two observations. *)
Lemma getCloseViewObs_query_at_point_witness :
  let vp := point elsewhere [0; 1]%nat None in
  is_finite (x (pos_ vp)) = true
  /\ is_finite (y (pos_ vp)) = true
  /\ is_finite (z (pos_ vp)) = true
  /\ getCloseViewObs vp (pos_ vp) None px0 = (false, Some 0%nat).
Proof.
  intros vp.
  assert (Hx : is_finite (x (pos_ vp)) = true) by reflexivity.
  assert (Hy : is_finite (y (pos_ vp)) = true) by reflexivity.
  assert (Hz : is_finite (z (pos_ vp)) = true) by reflexivity.
  exact (conj Hx (conj Hy (conj Hz (getCloseViewObs_query_at_point vp None px0 Hx Hy Hz)))).
Defined.

(** X15 on the scores +infinity and [FLT_MAX]: none is below [FLT_MAX],
    the front is returned. *)
Lemma findMinScoreFeature_any_scores_witness :
  let vp := point origin [4; 5]%nat None in
  obs_ vp <> []
  /\ (forall o, o ∈ obs_ vp -> (score_ o <? FLT_MAX) = false)
  /\ findMinScoreFeature vp origin = head (obs_ vp).
Proof.
  intros vp.
  assert (H : obs_ vp <> []) by discriminate.
  assert (Hno : forall o, o ∈ obs_ vp -> (score_ o <? FLT_MAX) = false).
  { intros o Ho. apply list_elem_of_In in Ho. simpl in Ho.
    destruct Ho as [<-|[<-|[]]]; reflexivity. }
  destruct (findMinScoreFeature_any_scores vp origin H) as (_ & _ & Hfront).
  exact (conj H (conj Hno (Hfront Hno))).
Defined.

(** X16 on the observations 0, 1, 2 and the feature 1. *)
Lemma deleteFeatureRef_then_select_witness :
  let vp := point origin [0; 1; 2]%nat (Some 1%nat) in
  NoDup (obs_ vp)
  /\ findMinScoreFeature (deleteFeatureRef 1%nat vp).1 origin <> Some 1%nat.
Proof.
  intros vp.
  assert (H : NoDup (obs_ vp)) by compute_done.
  destruct (deleteFeatureRef_then_select vp 1%nat origin None px0 H) as (Ha & _).
  exact (conj H Ha).
Defined.

End MoreRuns.

Section MoreFrameRuns.
Import Scenario Inputs frame_utils.
#[local] Open Scope Z_scope.

(** X18 on scenario S5 of the spec: 640x480 and four levels; level 3 is
    80x60. *)
Lemma createImgPyramid_level_sizes_witness :
  in_store store0 img640 /\ 1 <= 4
  /\ exists pyr' mem',
       createImgPyramid img640 4 [] store0 = Some (pyr', mem')
       /\ exists lvl, pyr' !! 3%nat = Some lvl /\ rows lvl = 60 /\ cols lvl = 80.
Proof.
  assert (Hs : in_store store0 img640).
  { repeat split; simpl; try lia. intros a [= <-]. lia. }
  assert (Hn : 1 <= 4) by lia.
  split; [exact Hs|]. split; [exact Hn|].
  destruct (createImgPyramid_level_sizes img640 4 [] store0 Hs Hn) as (pyr' & mem' & Hrun & Hk).
  exists pyr', mem'. split; [exact Hrun|].
  destruct (Hk 3%nat) as (lvl & Hl & Hr & Hc & _); [lia|].
  exists lvl. split; [exact Hl|]. split; [exact Hr | exact Hc].
Defined.

(** X19 on the 4x4 image and four levels. *)
Lemma createImgPyramid_allocates_fresh_buffers_witness :
  in_store store0 img4 /\ 1 <= 4
  /\ exists pyr' mem',
       createImgPyramid img4 4 [] store0 = Some (pyr', mem')
       /\ forall a buf, store0 !! a = Some buf -> mem' !! a = Some buf.
Proof.
  assert (Hs : in_store store0 img4).
  { repeat split; simpl; try lia. intros a [= <-]. lia. }
  assert (Hn : 1 <= 4) by lia.
  split; [exact Hs|]. split; [exact Hn|].
  destruct (createImgPyramid_allocates_fresh_buffers img4 4 [] store0 Hs Hn)
    as (pyr' & mem' & Hrun & Hold & _).
  exists pyr', mem'. split; [exact Hrun | exact Hold].
Defined.

(** X20 on the 4x4 image and four levels. *)
Lemma createImgPyramid_level_as_frame_witness :
  in_store store0 img4 /\ 1 <= 4
  /\ exists pyr' mem',
       createImgPyramid img4 4 [] store0 = Some (pyr', mem')
       /\ forall j lvl, (1 <= j)%nat -> pyr' !! j = Some lvl ->
            (Frame_ctor cam4 lvl process0).2
            = if (rows lvl * cols lvl =? 0) then Thrown EmptyImage
              else Returned (mkFrame (frame_counter_ process0) cam4 lvl).
Proof.
  assert (Hs : in_store store0 img4).
  { repeat split; simpl; try lia. intros a [= <-]. lia. }
  assert (Hn : 1 <= 4) by lia.
  split; [exact Hs|]. split; [exact Hn|].
  exact (createImgPyramid_level_as_frame img4 4 [] store0 cam4 process0 Hs Hn).
Defined.

(** X22 on a valid, an empty, a small and a three-channel image. *)
Lemma construct_all_outcomes_witness :
  let attempts := [(cam4, img4); (cam4, img_none); (cam4, img2); (cam4, img_bgr)] in
  INT_MIN <= frame_counter_ process0
  /\ frame_counter_ process0 + Z.of_nat (length attempts) <= INT_MAX
  /\ frame_counter_ (construct_all attempts process0).1 = 4
  /\ NoDup (constructed_ids (construct_all attempts process0).2).
Proof.
  intros attempts.
  assert (Hlo : INT_MIN <= frame_counter_ process0) by (vm_compute; discriminate).
  assert (Hhi : frame_counter_ process0 + Z.of_nat (length attempts) <= INT_MAX)
    by (vm_compute; discriminate).
  destruct (construct_all_outcomes attempts process0 Hlo Hhi) as (Ha & _ & Hb & _).
  exact (conj Hlo (conj Hhi (conj Ha Hb))).
Defined.

End MoreFrameRuns.
